(** * Odd-one-out puzzles over a lexical hierarchy: [wordnet.py] and the
    curriculum loop of [multitrain.py]

    The WordNet database that the program reads through [nltk] is a table
    of synsets; it is a parameter of the development.  A synset is
    identified by its name ([Synset.__eq__] and [__hash__] of nltk compare
    names), Python sets of synsets are [gset]s, the memo cache of
    [Specificity] is a [gmap], and exceptions are explicit results. *)

From Stdlib Require Import Ascii String QArith.
From stdpp Require Import gmap strings list relations sorting pretty.

Local Open Scope string_scope.
Local Open Scope list_scope.

(** ** Exceptions *)

Inductive Exn : Set :=
| WordNetError        (* wn.synset(name): no such synset *)
| RecursionError      (* maximum recursion depth exceeded *)
| IndexError          (* list index out of range *)
| ValueError          (* random.sample on an empty population *)
| UnboundLocalError   (* local variable read before assignment *)
| KeyError            (* dict[key] on a missing key *)
| TypeError.          (* None where an object is needed *)

(** The outcome of a call: a value, an exception, or no outcome yet,
    when a [while] loop has used the iterations it was given. *)
Inductive outcome (A : Type) : Type :=
| Ok (a : A)
| Raise (e : Exn)
| StillRunning.
Arguments Ok {A} a.
Arguments Raise {A} e.
Arguments StillRunning {A}.

Definition bind {A B : Type} (m : outcome A) (k : A → outcome B) : outcome B :=
  match m with
  | Ok a => k a
  | Raise e => Raise e
  | StillRunning => StillRunning
  end.

Notation "'let*' x ':=' m 'in' k" := (bind m (fun x => k))
  (at level 10, x pattern, m at level 100, k at level 200, only parsing).

(** A Python [for] loop over a list whose body may raise. *)
Fixpoint for_each {A S : Type} (body : S → A → outcome S) (s : S) (l : list A)
  : outcome S :=
  match l with
  | [] => Ok s
  | x :: rest => let* s' := body s x in for_each body s' rest
  end.

(** ** Strings: [normalize_lemma]

    Lemma names are ASCII; [str.lower] is modelled on ASCII letters. *)

Module Str.

(** [s.split(sep)] for a one-character separator. *)
Fixpoint split (sep : ascii) (s : string) : list string :=
  match s with
  | EmptyString => [EmptyString]
  | String c rest =>
      if Ascii.eqb c sep then EmptyString :: split sep rest
      else match split sep rest with
           | [] => [String c EmptyString]
           | w :: ws => String c w :: ws
           end
  end.

(** [sep.join(l)] *)
Fixpoint join (sep : string) (l : list string) : string :=
  match l with
  | [] => EmptyString
  | [w] => w
  | w :: rest => String.append w (String.append sep (join sep rest))
  end.

Definition lower_char (c : ascii) : ascii :=
  let n := nat_of_ascii c in
  if (65 <=? n)%nat && (n <=? 90)%nat then ascii_of_nat (n + 32) else c.

(** [s.lower()] *)
Fixpoint lower (s : string) : string :=
  match s with
  | EmptyString => EmptyString
  | String c rest => String (lower_char c) (lower rest)
  end.

Fixpoint map_chars (f : ascii → ascii) (s : string) : string :=
  match s with
  | EmptyString => EmptyString
  | String c rest => String (f c) (map_chars f rest)
  end.

End Str.

Definition normalize_lemma (lemma : string) : string :=
  let lemma := Str.join " " (Str.split "_" lemma) in
  let lemma := Str.join " " (Str.split "-" lemma) in
  let lemma := Str.lower lemma in
  lemma.

(** What the specification says a character becomes. *)
Definition normalize_char (c : ascii) : ascii :=
  Str.lower_char
    (if Ascii.eqb c "_" then " "%char
     else if Ascii.eqb c "-" then " "%char else c).

(** ** The WordNet database

    [wn.synset(name)] finds a synset by name, [wn.synsets(word)] lists the
    senses of a word; a synset carries its ordered hypernym and hyponym
    lists and its lemma names. *)

Abbreviation Synset := string (only parsing).

Record WordNet : Type := {
  wn_synset : string → option Synset;
  wn_synsets : string → list Synset;
  hypernyms : Synset → list Synset;
  hyponyms : Synset → list Synset;
  lemmas : Synset → list string }.

(** [sense.name()] *)
Definition name (sense : Synset) : string := sense.

Definition lookup_synset (wn : WordNet) (synset_name : string) : outcome Synset :=
  match wn_synset wn synset_name with
  | Some synset => Ok synset
  | None => Raise WordNetError
  end.

(** The edge relations of the hierarchy: [y] is listed among the
    relatives of [s]. *)
Definition linked (related : Synset → list Synset) (s y : Synset) : Prop :=
  y ∈ related s.

Definition hypernym_of (wn : WordNet) : relation Synset := linked (hypernyms wn).
Definition hyponym_of (wn : WordNet) : relation Synset := linked (hyponyms wn).

(** The canonical parent: the first hypernym. *)
Definition canonical_parent (wn : WordNet) (s : Synset) : option Synset :=
  head (hypernyms wn s).

(** ** [hypernym_chain]: a [while] loop, run for at most [fuel] tests of
    its condition. *)

Fixpoint hypernym_chain_loop (wn : WordNet) (fuel : nat)
    (synset : Synset) (result : list Synset) : outcome (list Synset) :=
  match fuel with
  | 0 => StillRunning
  | S fuel' =>
      match hypernyms wn synset with
      | [] => Ok result
      | parent :: _ => hypernym_chain_loop wn fuel' parent (result ++ [parent])
      end
  end.

Definition hypernym_chain (wn : WordNet) (fuel : nat) (synset_name : string)
  : outcome (list Synset) :=
  let* synset := lookup_synset wn synset_name in
  hypernym_chain_loop wn fuel synset [synset].

(** ** Closures

    [get_all_hypernyms_from_sense] and [get_all_hyponyms_from_sense] are
    the same recursive function over the two relations.  [depth] is the
    number of nested calls the interpreter still allows. *)

Fixpoint get_all_from_sense (related : Synset → list Synset) (depth : nat)
    (sense : Synset) : outcome (gset Synset) :=
  match depth with
  | 0 => Raise RecursionError
  | S depth' =>
      for_each
        (fun result y =>
           let result := result ∪ {[ y ]} in
           let* zs := get_all_from_sense related depth' y in
           Ok (result ∪ zs))
        ∅ (related sense)
  end.

Definition get_all_hypernyms_from_sense (wn : WordNet) (limit : nat)
    (sense : Synset) : outcome (gset Synset) :=
  get_all_from_sense (hypernyms wn) limit sense.

Definition get_all_hyponyms_from_sense (wn : WordNet) (limit : nat)
    (sense : Synset) : outcome (gset Synset) :=
  get_all_from_sense (hyponyms wn) limit sense.

Definition get_all_hypernyms (wn : WordNet) (limit : nat) (word : string)
  : outcome (gset Synset) :=
  for_each
    (fun result x =>
       let* ys := get_all_hypernyms_from_sense wn limit x in
       Ok (result ∪ ys))
    ∅ (wn_synsets wn word).

(** The recursion from [sense] nests at most [depth] calls deep. *)
Fixpoint nests_within (related : Synset → list Synset) (depth : nat)
    (sense : Synset) : bool :=
  match depth with
  | 0 => false
  | S depth' => forallb (nests_within related depth') (related sense)
  end.

(** Lines 83-88 of [get_flatness_from_sense]: the loop that fills
    [children] and [non_children]. *)
Definition flatness_sets (wn : WordNet) (limit : nat) (sense : Synset)
  : outcome (gset Synset * gset Synset) :=
  for_each
    (fun '(children, non_children) y =>
       let children : gset Synset := children ∪ {[ y ]} in
       let* zs := get_all_hyponyms_from_sense wn limit y in
       Ok (children, (non_children : gset Synset) ∪ zs))
    (∅, ∅) (hyponyms wn sense).

Definition get_flatness_from_sense (wn : WordNet) (limit : nat)
    (sense : Synset) : outcome Q :=
  let* (children, non_children) := flatness_sets wn limit sense in
  if decide (size non_children + size children ≠ 0)%nat
  then Ok (inject_Z (Z.of_nat (size children))
           / inject_Z (Z.of_nat (size non_children + size children)))%Q
  else Ok 1%Q.

(** ** Specificity *)

Definition add_lemmas (wn : WordNet) (result : gset string) (y : Synset)
  : gset string :=
  foldl (fun result lemma => result ∪ {[ normalize_lemma lemma ]})
        result (lemmas wn y).

Definition get_all_lemmas_from_sense (wn : WordNet) (limit : nat)
    (sense : Synset) : outcome (gset string) :=
  let result := add_lemmas wn ∅ sense in
  let* ys := get_all_hyponyms_from_sense wn limit sense in
  Ok (foldl (add_lemmas wn) result (elements ys)).

Module Specificity.

(** [self.cache = dict()] *)
Definition init : gmap string nat := ∅.

Definition evaluate (wn : WordNet) (limit : nat) (cache : gmap string nat)
    (sense : Synset) : outcome (nat * gmap string nat) :=
  let* cache :=
    match cache !! name sense with
    | None =>
        let* all := get_all_lemmas_from_sense wn limit sense in
        let spec := size all in
        Ok (<[ name sense := spec ]> cache)
    | Some _ => Ok cache
    end in
  match cache !! name sense with
  | Some spec => Ok (spec, cache)
  | None => Raise KeyError
  end.

End Specificity.

(** ** [find_lowest_common_ancestor] *)

(** Order of the pairs [(score, synset)]: by score, then by name. *)
Definition tuple_leb (a b : nat * Synset) : bool :=
  (a.1 <? b.1)%nat || ((a.1 =? b.1)%nat && String.leb a.2 b.2).

Definition tuple_le (a b : nat * Synset) : Prop := tuple_leb a b = true.

#[global] Instance tuple_le_dec : RelDecision tuple_le.
Proof. intros a b. unfold tuple_le. apply bool_eq_dec. Defined.

(** [sorted(l)] *)
Definition sorted (l : list (nat * Synset)) : list (nat * Synset) :=
  merge_sort tuple_le l.

Definition find_lowest_common_ancestor (wn : WordNet) (limit : nat)
    (specificity : gmap string nat) (words : list string)
  : outcome ((nat * Synset) * gmap string nat) :=
  match words with
  | [] => Raise IndexError
  | word0 :: rest =>
      let* commonHypernyms := get_all_hypernyms wn limit word0 in
      let* commonHypernyms :=
        for_each
          (fun common word =>
             let* hs := get_all_hypernyms wn limit word in
             Ok (common ∩ hs))
          commonHypernyms rest in
      if decide (size commonHypernyms = 0)%nat then
        let* hyp := lookup_synset wn "entity.n.01" in
        let* (spec, specificity) :=
          Specificity.evaluate wn limit specificity hyp in
        Ok ((spec, hyp), specificity)
      else
        let* (scoredHypernyms, specificity) :=
          for_each
            (fun '(scored, cache) hyp =>
               let* (spec, cache) := Specificity.evaluate wn limit cache hyp in
               Ok (scored ++ [(spec, hyp)], cache))
            ([], specificity) (elements commonHypernyms) in
        match sorted scoredHypernyms with
        | best :: _ => Ok (best, specificity)
        | [] => Raise IndexError
        end
  end.

(** ** [GetRandomSynset]

    The pseudo-random generator is a stream of numbers; the [tick]-th
    request reads [rng tick]. *)

Module GetRandomSynset.

Record t : Type := {
  entity_hyps : gset Synset;
  specificities : gmap Synset nat }.

Definition init (wn : WordNet) (limit : nat) (root_synset : string) : outcome t :=
  let* entity := lookup_synset wn root_synset in
  let* hyps := get_all_hyponyms_from_sense wn limit entity in
  let* (specs, _) :=
    for_each
      (fun '(specs, cache) hyponym =>
         let* (spec, cache) := Specificity.evaluate wn limit cache hyponym in
         Ok (<[ hyponym := spec ]> (specs : gmap Synset nat), cache))
      (∅, Specificity.init) (elements hyps) in
  Ok {| entity_hyps := hyps; specificities := specs |}.

(** [random.sample(self.entity_hyps, 1)[0]] *)
Definition call (self : t) (rng : nat → nat) (tick : nat) : outcome Synset :=
  let population := elements (entity_hyps self) in
  match population !! (rng tick mod length population) with
  | Some random_word => Ok random_word
  | None => Raise ValueError
  end.

(** [while True:] run for at most [fuel] iterations, drawing from
    [tick] on. *)
Fixpoint random_non_hyponym (wn : WordNet) (limit : nat) (self : t)
    (rng : nat → nat) (fuel tick : nat) (synset : Synset) : outcome Synset :=
  match fuel with
  | 0 => StillRunning
  | S fuel' =>
      let* result := call self rng tick in
      let* hs := get_all_hypernyms_from_sense wn limit result in
      if decide (synset ∉ hs) then Ok result
      else random_non_hyponym wn limit self rng fuel' (S tick) synset
  end.

End GetRandomSynset.

(** ** The curriculum controller: [train] of [multitrain.py] *)

(** Modelled from the spec: the puzzle generator and the puzzle sets
    ([puzzle.py]) are not among the sources.  The generator holds an
    active root concept, given at construction and replaced by
    [reset_root]; a puzzle set is generated from the root that is active
    at that moment.  The random content of a set is identified by the
    number [drawn] of sets generated before it. *)
Record WordnetPuzzleGenerator : Type := { active_root : option string }.

Definition reset_root (generator : WordnetPuzzleGenerator) (root_synset : string)
  : WordnetPuzzleGenerator :=
  {| active_root := Some root_synset |}.

Record PuzzleDataset : Type := {
  generated_from : option string;
  requested : nat;
  drawn : nat }.

Definition generate (generator : WordnetPuzzleGenerator) (num_train drawn : nat)
  : PuzzleDataset :=
  {| generated_from := active_root generator;
     requested := num_train;
     drawn := drawn |}.

Record DataLoader : Type := {
  dataset : PuzzleDataset;
  loader_batch_size : nat;
  shuffle : bool }.

(** The trainable classifier is an external collaborator: one pass over
    a loader changes the model, evaluation yields an accuracy
    [correct / total], an exact fraction. *)
Class Classifier : Type := {
  Model : Type;
  TiedClassifier : nat → nat → nat → Model;
  vocab_size : WordnetPuzzleGenerator → nat;
  train_pass : Model → DataLoader → Model;
  evaluate : Model → DataLoader → Q }.

(** One row of [multrain_data.csv]. *)
Record Row : Type := {
  word : string;
  epochs_used : nat;
  best_accuracy : Q;
  success : bool }.

(** Code that appends to the log file and may raise: the rows written
    before an exception stay in the file. *)
Definition Run (A : Type) : Type := list Row → outcome A * list Row.

Definition ret {A : Type} (a : A) : Run A := fun csv => (Ok a, csv).

Definition lift {A : Type} (m : outcome A) : Run A := fun csv => (m, csv).

Definition bind_run {A B : Type} (m : Run A) (k : A → Run B) : Run B :=
  fun csv =>
    match m csv with
    | (Ok a, csv') => k a csv'
    | (Raise e, csv') => (Raise e, csv')
    | (StillRunning, csv') => (StillRunning, csv')
    end.

Notation "'run*' x ':=' m 'in' k" := (bind_run m (fun x => k))
  (at level 10, x pattern, m at level 100, k at level 200, only parsing).

Definition write_to_csv (word : string) (num_epochs : nat)
    (best_accuracy : Q) (success : bool) : Run unit :=
  fun csv =>
    (Ok tt, csv ++ [ {| word := word; epochs_used := num_epochs;
                        best_accuracy := best_accuracy; success := success |} ]).

(** [a > b] on accuracies *)
Definition Qgtb (a b : Q) : bool := negb (Qle_bool a b).

(** The [for w in chain[::-1]] loop of [get_final_root_synset]; falling
    off its end returns [None]. *)
Fixpoint first_below_700 (wn : WordNet) (limit : nat) (spec : gmap string nat)
    (ws : list Synset) : outcome (option string) :=
  match ws with
  | [] => Ok None
  | w :: rest =>
      let* (v, spec) := Specificity.evaluate wn limit spec w in
      if (v <? 700)%nat then Ok (Some (name w))
      else first_below_700 wn limit spec rest
  end.

Definition get_final_root_synset (wn : WordNet) (limit fuel : nat)
    (initial_root_synset : string) : outcome (option string) :=
  let* chain := hypernym_chain wn fuel initial_root_synset in
  let spec := Specificity.init in
  first_below_700 wn limit spec (rev chain).

(** The local variables of [train] that live across epochs.
    [current_root] is unbound ([None]) until its first assignment. *)
Record Locals `{Classifier} : Type := {
  initial_root_synset : string;
  current_root : option string;
  puzzle_generator : WordnetPuzzleGenerator;
  model : Model;
  loader : option DataLoader;
  test_loader : option DataLoader;
  best_model : option Model;
  best_test_acc : Q;
  draws : nat }.

Section Train.
Context `{Classifier}.
Variables (wn : WordNet) (limit fuel : nat).
Variables (num_epochs hidden_size num_puzzles_to_generate batch_size : nat).

Definition maybe_regenerate (puzzle_generator : WordnetPuzzleGenerator)
    (epoch : nat) (prev_loader prev_test_loader : option DataLoader)
    (draws : nat) : option DataLoader * option DataLoader * nat :=
  if decide (epoch mod 100 = 0)%nat then
    let dataset := generate puzzle_generator num_puzzles_to_generate draws in
    let loader := {| dataset := dataset; loader_batch_size := batch_size;
                     shuffle := true |} in
    let test_dataset := generate puzzle_generator 100 (S draws) in
    let test_loader := {| dataset := test_dataset; loader_batch_size := 100;
                          shuffle := false |} in
    (Some loader, Some test_loader, S (S draws))
  else (prev_loader, prev_test_loader, draws).

Definition maybe_evaluate (model : Model) (epoch : nat)
    (test_loader : option DataLoader) (prev_best : option Model)
    (prev_best_acc : Q) : outcome (option Model * Q) :=
  if decide (epoch mod 100 = 99)%nat then
    match test_loader with
    | None => Raise TypeError
    | Some test_loader =>
        let test_acc := evaluate model test_loader in
        if Qgtb test_acc prev_best_acc then Ok (Some model, test_acc)
        else Ok (prev_best, prev_best_acc)
    end
  else Ok (prev_best, prev_best_acc).

(** Lines 213-224: the branch taken when [best_test_acc > .8]. *)
Definition promote (epoch : nat) (st : Locals) : Run Locals :=
  let current_root := initial_root_synset st in
  run* chain := lift (hypernym_chain wn fuel (initial_root_synset st)) in
  run* parent := lift (match chain !! 1%nat with
                       | Some parent => Ok parent
                       | None => Raise IndexError
                       end) in
  let initial_root_synset := name parent in
  let puzzle_generator := reset_root (puzzle_generator st) initial_root_synset in
  run* _ := write_to_csv current_root epoch (best_test_acc st) true in
  let best_test_acc := (-1)%Q in
  let '(loader, test_loader, draws) :=
    maybe_regenerate puzzle_generator 100 (loader st) (test_loader st) (draws st) in
  ret {| initial_root_synset := initial_root_synset;
         current_root := Some current_root;
         puzzle_generator := puzzle_generator;
         model := model st;
         loader := loader;
         test_loader := test_loader;
         best_model := best_model st;
         best_test_acc := best_test_acc;
         draws := draws |}.

(** Lines 228-231: the last epoch of the budget writes the failure row;
    reading [current_root] while it is unbound raises. *)
Definition budget_check (epoch : nat) (st : Locals) : Run (Locals * bool) :=
  if decide (epoch = num_epochs - 1)%nat then
    run* current_root := lift (match current_root st with
                               | Some w => Ok w
                               | None => Raise UnboundLocalError
                               end) in
    run* _ := write_to_csv current_root epoch (best_test_acc st) false in
    ret (st, true)
  else ret (st, false).

(** Lines 199-210: regeneration, one pass of training, evaluation. *)
Definition train_and_evaluate (epoch : nat) (st : Locals) : outcome Locals :=
  let '(loader, test_loader, draws) :=
    maybe_regenerate (puzzle_generator st) epoch (loader st) (test_loader st)
                     (draws st) in
  let* model := match loader with
                | Some loader => Ok (train_pass (model st) loader)
                | None => Raise TypeError
                end in
  let* (best_model, best_test_acc) :=
    maybe_evaluate model epoch test_loader (best_model st) (best_test_acc st) in
  Ok {| initial_root_synset := initial_root_synset st;
        current_root := current_root st;
        puzzle_generator := puzzle_generator st;
        model := model;
        loader := loader;
        test_loader := test_loader;
        best_model := best_model;
        best_test_acc := best_test_acc;
        draws := draws |}.

(** The body of [for epoch in range(num_epochs)]; the boolean tells
    whether it left the loop by [break]. *)
Definition epoch_body (epoch : nat) (st : Locals) : Run (Locals * bool) :=
  run* st := lift (train_and_evaluate epoch st) in
  run* st := (if Qgtb (best_test_acc st) (8 # 10) then promote epoch st
              else ret st) in
  budget_check epoch st.

Fixpoint for_epochs (epochs : list nat) (st : Locals) : Run Locals :=
  match epochs with
  | [] => ret st
  | epoch :: rest =>
      run* (st, broke) := epoch_body epoch st in
      if (broke : bool) then ret st else for_epochs rest st
  end.

(** One turn of [for root_synset_list in root_synset_lists]; of the
    locals only [current_root] survives from one turn to the next. *)
Definition train_target (root_synset_list : list string)
    (current_root : option string) (draws : nat) : Run Locals :=
  run* initial_root_synset := lift (match root_synset_list with
                                    | w :: _ => Ok w
                                    | [] => Raise IndexError
                                    end) in
  run* final_root_synset :=
    lift (if decide (length root_synset_list ≠ 2)%nat
          then get_final_root_synset wn limit fuel initial_root_synset
          else Ok (root_synset_list !! 1%nat)) in
  let puzzle_generator := {| active_root := final_root_synset |} in
  let input_size := (5 * vocab_size puzzle_generator)%nat in
  let output_size := 5%nat in
  let model := TiedClassifier input_size output_size hidden_size in
  let puzzle_generator := reset_root puzzle_generator initial_root_synset in
  for_epochs (seq 0 num_epochs)
    {| initial_root_synset := initial_root_synset;
       current_root := current_root;
       puzzle_generator := puzzle_generator;
       model := model;
       loader := None;
       test_loader := None;
       best_model := None;
       best_test_acc := (-1)%Q;
       draws := draws |}.

Fixpoint train_targets (root_synset_lists : list (list string))
    (carried_root : option string) (drawn_so_far : nat)
    (last : option (option Model)) : Run (option Model) :=
  match root_synset_lists with
  | [] => lift (match last with
                | Some best_model => Ok best_model
                | None => Raise UnboundLocalError
                end)
  | root_synset_list :: rest =>
      run* st := train_target root_synset_list carried_root drawn_so_far in
      train_targets rest (current_root st) (draws st) (Some (best_model st))
  end.

Definition train (root_synset_lists : list (list string)) : Run (option Model) :=
  train_targets root_synset_lists None 0 None.

End Train.

(** ** Notions used to state the properties *)

(** Hypernym and hyponym pointers mirror each other, as in WordNet. *)
Definition mirrored (wn : WordNet) : Prop :=
  ∀ a b, b ∈ hypernyms wn a ↔ a ∈ hyponyms wn b.

(** [y] is [c] or lies in the hyponym closure of [c]. *)
Definition in_subtree (wn : WordNet) (c y : Synset) : Prop :=
  y = c ∨ tc (hyponym_of wn) c y.

(** [t] is a normalized lemma token of [c] or of its hyponym closure. *)
Definition token_under (wn : WordNet) (c : Synset) (t : string) : Prop :=
  ∃ y l, in_subtree wn c y ∧ l ∈ lemmas wn y ∧ t = normalize_lemma l.

(** The caches a [Specificity] object can hold: empty at construction,
    then changed by [evaluate] only. *)
Inductive cache_state (wn : WordNet) (limit : nat) : gmap string nat → Prop :=
| cache_init : cache_state wn limit Specificity.init
| cache_evaluate cache sense spec cache' :
    cache_state wn limit cache →
    Specificity.evaluate wn limit cache sense = Ok (spec, cache') →
    cache_state wn limit cache'.

(** The number [evaluate] computes for a sense on a cache miss. *)
Definition specificity_of (wn : WordNet) (limit : nat) (sense : Synset) : nat :=
  match get_all_lemmas_from_sense wn limit sense with
  | Ok all => size all
  | _ => 0
  end.

(** Modelled from the spec: the assembly of a puzzle ([puzzle.py]) is not
    among the sources.  §4.3, step 4: the odd concept is put at the last
    position, after the four siblings. *)
Definition assemble_puzzle (siblings : list Synset) (odd : Synset) : list Synset :=
  siblings ++ [odd].

(** The first sense of a list whose specificity is below 700. *)
Definition scan_below (wn : WordNet) (limit : nat) (ws : list Synset)
  : option Synset :=
  List.find (fun w => (specificity_of wn limit w <? 700)%nat) ws.

(** The terminal root as the specification words it: walking the chain
    upward from the initial concept, the first concept whose specificity
    is below 700; with the initial concept counted, or its proper
    ancestors only. *)
Definition first_below_upward (wn : WordNet) (limit : nat) (chain : list Synset)
  : option Synset :=
  scan_below wn limit chain.

Definition first_ancestor_below_upward (wn : WordNet) (limit : nat)
    (chain : list Synset) : option Synset :=
  scan_below wn limit (tail chain).

(** The terminal root walking the chain downward from its root end. *)
Definition first_below_downward (wn : WordNet) (limit : nat)
    (chain : list Synset) : option Synset :=
  scan_below wn limit (rev chain).

(** ** Draws of the sampler *)

(** The draw numbered [t] falls among the hyponyms of [synset]: the loop
    of [random_non_hyponym] goes round again. *)
Definition rejected (wn : WordNet) (limit : nat) (self : GetRandomSynset.t)
    (rng : nat → nat) (synset : Synset) (t : nat) : Prop :=
  ∃ r hs, GetRandomSynset.call self rng t = Ok r
          ∧ get_all_hypernyms_from_sense wn limit r = Ok hs
          ∧ synset ∈ hs.

(** The draw numbered [t] is [r] and passes the test of the loop. *)
Definition accepted (wn : WordNet) (limit : nat) (self : GetRandomSynset.t)
    (rng : nat → nat) (synset : Synset) (t : nat) (r : Synset) : Prop :=
  GetRandomSynset.call self rng t = Ok r
  ∧ ∃ hs, get_all_hypernyms_from_sense wn limit r = Ok hs ∧ synset ∉ hs.

(** The sampler built by [GetRandomSynset(root_synset)], when the
    construction succeeds. *)
Definition sampler_at (wn : WordNet) (limit : nat) (root_synset : string)
  : GetRandomSynset.t :=
  match GetRandomSynset.init wn limit root_synset with
  | Ok self => self
  | _ => {| GetRandomSynset.entity_hyps := ∅;
            GetRandomSynset.specificities := ∅ |}
  end.

(** The test of the loop fails on the synset [r]. *)
Definition fails_test (wn : WordNet) (limit : nat) (synset r : Synset) : bool :=
  match get_all_hypernyms_from_sense wn limit r with
  | Ok hs => bool_decide (synset ∈ hs)
  | _ => false
  end.

(** ** The path to the root *)

(** [p] is the canonical parent of [s]. *)
Definition parent_of (wn : WordNet) (p s : Synset) : Prop :=
  canonical_parent wn s = Some p.

(** [ascent wn s l]: [l] lists [s], its canonical parent, the parent of
    that, and so on up to a synset without hypernyms. *)
Inductive ascent (wn : WordNet) : Synset → list Synset → Prop :=
| ascent_top s : hypernyms wn s = [] → ascent wn s [s]
| ascent_step s p l :
    canonical_parent wn s = Some p → ascent wn p l → ascent wn s (s :: l).

(** ** Shared hypernyms *)

(** [h] is a hypernym, direct or not, of some sense of [word]. *)
Definition hypernym_of_word (wn : WordNet) (word : string) (h : Synset) : Prop :=
  ∃ sense, sense ∈ wn_synsets wn word ∧ tc (hypernym_of wn) sense h.

(** [h] is a hypernym shared by every word of the list. *)
Definition shared_hypernym (wn : WordNet) (words : list string) (h : Synset)
  : Prop :=
  ∀ word, word ∈ words → hypernym_of_word wn word h.

(** ** Small databases *)

Record Entry : Type := {
  entry_name : string;
  entry_hypernyms : list Synset;
  entry_hyponyms : list Synset;
  entry_lemmas : list string }.

Fixpoint find_entry (table : list Entry) (synset_name : string) : option Entry :=
  match table with
  | [] => None
  | e :: rest =>
      if String.eqb (entry_name e) synset_name then Some e
      else find_entry rest synset_name
  end.

Definition has_lemma (w : string) (e : Entry) : bool :=
  existsb (String.eqb w) (entry_lemmas e).

Definition wordnet_of (table : list Entry) : WordNet :=
  {| wn_synset n := entry_name <$> find_entry table n;
     wn_synsets w := entry_name <$> List.filter (has_lemma w) table;
     hypernyms s := from_option entry_hypernyms [] (find_entry table s);
     hyponyms s := from_option entry_hyponyms [] (find_entry table s);
     lemmas s := from_option entry_lemmas [] (find_entry table s) |}.

(** Every canonical-parent link of the table goes down in [level]. *)
Definition levelled (level : Synset → nat) (table : list Entry) : bool :=
  forallb
    (fun e => match head (entry_hypernyms e) with
              | Some p => (level p <? level (entry_name e))%nat
              | None => true
              end)
    table.

(** Each hypernym pointer of the table has its hyponym pointer and
    conversely. *)
Definition mirrored_table (table : list Entry) : bool :=
  forallb
    (fun e =>
       forallb (fun p => match find_entry table p with
                         | Some e' => existsb (String.eqb (entry_name e))
                                              (entry_hyponyms e')
                         | None => false
                         end) (entry_hypernyms e)
       && forallb (fun c => match find_entry table c with
                            | Some e' => existsb (String.eqb (entry_name e))
                                                 (entry_hypernyms e')
                            | None => false
                            end) (entry_hyponyms e))
    table.

Definition animals_table : list Entry :=
  [ {| entry_name := "entity.n.01"; entry_hypernyms := [];
       entry_hyponyms := ["animal.n.01"; "plant.n.01"];
       entry_lemmas := ["entity"] |};
    {| entry_name := "animal.n.01"; entry_hypernyms := ["entity.n.01"];
       entry_hyponyms := ["dog.n.01"; "cat.n.01"; "pet.n.01"];
       entry_lemmas := ["animal"; "animate_being"; "Animate-Being"] |};
    {| entry_name := "plant.n.01"; entry_hypernyms := ["entity.n.01"];
       entry_hyponyms := [];
       entry_lemmas := ["plant"; "flora"] |};
    {| entry_name := "dog.n.01"; entry_hypernyms := ["animal.n.01"];
       entry_hyponyms := ["puppy.n.01"];
       entry_lemmas := ["dog"; "domestic_dog"; "Canis_familiaris"] |};
    {| entry_name := "cat.n.01"; entry_hypernyms := ["animal.n.01"];
       entry_hyponyms := [];
       entry_lemmas := ["cat"; "true_cat"] |};
    {| entry_name := "pet.n.01"; entry_hypernyms := ["animal.n.01"];
       entry_hyponyms := ["puppy.n.01"];
       entry_lemmas := ["pet"] |};
    {| entry_name := "puppy.n.01"; entry_hypernyms := ["dog.n.01"; "pet.n.01"];
       entry_hyponyms := [];
       entry_lemmas := ["puppy"; "dog"] |} ].

Definition animals : WordNet := wordnet_of animals_table.

Definition animals_level (s : Synset) : nat :=
  match hypernym_chain_loop animals 10 s [s] with
  | Ok chain => length chain
  | _ => 0
  end.

(** A database with one synset of 700 distinct lemmas. *)
Definition crowd_table : list Entry :=
  [ {| entry_name := "crowd.n.01"; entry_hypernyms := [];
       entry_hyponyms := [];
       entry_lemmas := (fun i : nat => pretty i) <$> seq 0 700 |} ].

Definition crowd : WordNet := wordnet_of crowd_table.

(** A classifier that is always right, and one that is never right. *)
Definition perfect_classifier : Classifier :=
  {| Model := unit;
     TiedClassifier _ _ _ := tt;
     vocab_size _ := 0%nat;
     train_pass m _ := m;
     evaluate _ _ := 1%Q |}.

Definition hopeless_classifier : Classifier :=
  {| Model := unit;
     TiedClassifier _ _ _ := tt;
     vocab_size _ := 0%nat;
     train_pass m _ := m;
     evaluate _ _ := 0%Q |}.

(** A classifier that solves the puzzles drawn under [dog.n.01] and no
    others. *)
Definition dog_classifier : Classifier :=
  {| Model := unit;
     TiedClassifier _ _ _ := tt;
     vocab_size _ := 0%nat;
     train_pass m _ := m;
     evaluate _ l :=
       match generated_from (dataset l) with
       | Some root => if String.eqb root "dog.n.01" then 1%Q else 0%Q
       | None => 0%Q
       end |}.

(** The locals of [train] before epoch 99 of a first target with the
    initial concept [root], under the classifier that is always right:
    the puzzle sets of epoch 0 are in place, no accuracy has been measured
    and [current_root] is unbound. *)
Definition before_epoch_99 (root : string) : @Locals perfect_classifier :=
  let generator := {| active_root := Some root |} in
  {| initial_root_synset := root;
     current_root := None;
     puzzle_generator := generator;
     model := tt : @Model perfect_classifier;
     loader := Some {| dataset := generate generator 20 0;
                       loader_batch_size := 4; shuffle := true |};
     test_loader := Some {| dataset := generate generator 100 1;
                            loader_batch_size := 100; shuffle := false |};
     best_model := None;
     best_test_acc := (-1)%Q;
     draws := 2 |}.

(** ** The other functions of [wordnet.py] *)

Definition get_just_children_from_sense (wn : WordNet) (sense : Synset)
  : gset Synset :=
  foldl (fun result y => result ∪ {[ y ]}) ∅ (hyponyms wn sense).

(** An element of the list [hypernym_chain_with_specs] returns: the
    synset it starts from, bare, then pairs of a synset and its score. *)
Inductive ChainItem : Type :=
| Bare (synset : Synset)
| Scored (synset : Synset) (syn_spec : nat).

Fixpoint hypernym_chain_with_specs_loop (wn : WordNet) (limit fuel : nat)
    (spec : gmap string nat) (synset : Synset) (result : list ChainItem)
  : outcome (list ChainItem) :=
  match fuel with
  | 0 => StillRunning
  | S fuel' =>
      match hypernyms wn synset with
      | [] => Ok result
      | parent :: _ =>
          let* (syn_spec, spec) := Specificity.evaluate wn limit spec parent in
          hypernym_chain_with_specs_loop wn limit fuel' spec parent
            (result ++ [Scored parent syn_spec])
      end
  end.

Definition hypernym_chain_with_specs (wn : WordNet) (limit fuel : nat)
    (synset_name : string) : outcome (list ChainItem) :=
  let spec := Specificity.init in
  let* synset := lookup_synset wn synset_name in
  hypernym_chain_with_specs_loop wn limit fuel spec synset [Bare synset].

(** The synset an item carries. *)
Definition item_synset (item : ChainItem) : Synset :=
  match item with
  | Bare synset => synset
  | Scored synset _ => synset
  end.

Module Repitition.

(** The inner loop of [generate_the_big_one]. *)
Definition append_all (result : list Synset) (zs : gset Synset) : list Synset :=
  foldl (fun result z => result ++ [z]) result (elements zs).

Definition generate_the_big_one (wn : WordNet) (limit : nat)
  : outcome (list Synset) :=
  let* entity := lookup_synset wn "entity.n.01" in
  for_each
    (fun result y =>
       let result := result ++ [y] in
       let* zs := get_all_hyponyms_from_sense wn limit y in
       Ok (append_all result zs))
    [] (hyponyms wn entity).

(** [self.the_big_one.count(sense)] *)
Definition get_repitition_from_sense (the_big_one : list Synset)
    (sense : Synset) : nat :=
  count_occ String.string_dec the_big_one sense.

(** The inner loop of [which_parents]. *)
Definition append_matches (result : list Synset) (y sense : Synset)
    (zs : gset Synset) : list Synset :=
  foldl (fun result z => if decide (z = sense) then result ++ [y] else result)
        result (elements zs).

Definition which_parents (wn : WordNet) (limit : nat) (sense : Synset)
  : outcome (list Synset) :=
  let* entity := lookup_synset wn "entity.n.01" in
  for_each
    (fun result y =>
       let result := if decide (y = sense) then result ++ [entity] else result in
       let* zs := get_all_hyponyms_from_sense wn limit y in
       Ok (append_matches result y sense zs))
    [] (hyponyms wn entity).

End Repitition.

(** [GetRandomSynset.random_synset_with_specificity]: the candidates are
    the keys of [self.specificities] whose score lies in the band;
    [random.choice] reads one random number.  [None] is Python's [None]. *)
Definition band_candidates (self : GetRandomSynset.t) (lower upper : nat)
  : list Synset :=
  omap (fun '(hyp, spec) =>
          if decide (lower ≤ spec ∧ spec ≤ upper)%nat then Some hyp else None)
       (map_to_list (GetRandomSynset.specificities self)).

Definition random_synset_with_specificity (self : GetRandomSynset.t)
    (rng : nat → nat) (tick : nat) (lower upper : nat) : option Synset :=
  let candidates := band_candidates self lower upper in
  if decide (0 < length candidates)%nat
  then candidates !! (rng tick mod length candidates)%nat
  else None.

(** ** [evaluate] of [multitrain.py]

    The classifier is a function from a batch of inputs to the labels
    it predicts for them ([log_probs.argmax(dim=1)]); a loader is a list
    of batches, each with its responses. *)

Module Multitrain.

(** What [correct / total] yields: the quotient, or the exception
    ZeroDivisionError when [total] is 0. *)
Inductive Accuracy : Type :=
| Quotient (q : Q)
| ZeroDivisionError.

(** [for i in range(predictions.shape[0])] *)
Definition count_correct (predictions response : list nat) (correct : nat)
  : outcome nat :=
  for_each
    (fun correct i =>
       match response !! i, predictions !! i with
       | Some r, Some p => if decide (r = p) then Ok (S correct) else Ok correct
       | _, _ => Raise IndexError
       end)
    correct (seq 0 (length predictions)).

Definition tally {Data : Type} (model : Data → list nat)
    (loader : list (Data * list nat)) : outcome (nat * nat) :=
  for_each
    (fun '(correct, total) '(data, response) =>
       let predictions := model data in
       let total := (total + length predictions)%nat in
       let* correct := count_correct predictions response correct in
       Ok (correct, total))
    (0%nat, 0%nat) loader.

Definition evaluate {Data : Type} (model : Data → list nat)
    (loader : list (Data * list nat)) : outcome Accuracy :=
  let* (correct, total) := tally model loader in
  if decide (total = 0)%nat then Ok ZeroDivisionError
  else Ok (Quotient (inject_Z (Z.of_nat correct) / inject_Z (Z.of_nat total))%Q).

(** The number of positions of a batch where the prediction is the
    response. *)
Fixpoint agreements (predictions response : list nat) : nat :=
  match predictions, response with
  | p :: ps, r :: rs => (if decide (r = p) then 1 else 0) + agreements ps rs
  | _, _ => 0
  end.

(** The counts over a whole loader. *)
Definition total_predictions {Data : Type} (model : Data → list nat)
    (loader : list (Data * list nat)) : nat :=
  sum_list_with (fun '(data, _) => length (model data)) loader.

Definition total_agreements {Data : Type} (model : Data → list nat)
    (loader : list (Data * list nat)) : nat :=
  sum_list_with (fun '(data, response) => agreements (model data) response)
                loader.

End Multitrain.

(** ** [DirectedGraph] of [ozone/animals.py]

    An [AnimalVertex] is compared and hashed by its name and is
    identified with it.  [dict(pairs)] inserts the pairs in order, a later
    pair replacing an earlier one with the same key. *)

Module Ozone.

Definition dict {V : Type} (pairs : list (string * V)) : gmap string V :=
  foldl (fun d '(k, v) => <[ k := v ]> d) ∅ pairs.

Record DirectedGraph : Type := {
  vertices : list string;
  edges : list (string * string);
  vocab : gmap string nat;
  name_to_vertex : gmap string string }.

Definition init (vertices : list string) (edges : list (string * string))
  : DirectedGraph :=
  {| vertices := vertices;
     edges := edges;
     vocab := dict (imap (fun k v => (v, k)) vertices);
     name_to_vertex := dict ((fun v => (v, v)) <$> vertices) |}.

Definition get_vocab (self : DirectedGraph) : gmap string nat := vocab self.

Definition lookup_vertex_by_name (self : DirectedGraph) (name : string)
  : outcome string :=
  match name_to_vertex self !! name with
  | Some v => Ok v
  | None => Raise KeyError
  end.

End Ozone.

(** A hierarchy with a loop: [a] and [b] are each other's hypernym and
    hyponym. *)
Definition loop_table : list Entry :=
  [ {| entry_name := "a.n.01"; entry_hypernyms := ["b.n.01"];
       entry_hyponyms := ["b.n.01"]; entry_lemmas := ["a"] |};
    {| entry_name := "b.n.01"; entry_hypernyms := ["a.n.01"];
       entry_hyponyms := ["a.n.01"]; entry_lemmas := ["b"] |} ].

Definition loop_net : WordNet := wordnet_of loop_table.

(** ** What a run of [train] writes *)

(** The rows [train] can write under a budget of [num_epochs]: a success
    row at an epoch that ends a block of 100, with an accuracy above 0.8;
    a failure row at the last epoch of the budget. *)
Definition row_shape (num_epochs : nat) (row : Row) : Prop :=
  (epochs_used row < num_epochs)%nat
  ∧ if success row
    then (epochs_used row mod 100 = 99)%nat
         ∧ Qgtb (best_accuracy row) (8 # 10) = true
    else epochs_used row = (num_epochs - 1)%nat.

(** [m] only appends rows, each satisfying [P], to the log it is given,
    and a value it returns satisfies [Post]. *)
Definition appends {A : Type} (P : Row → Prop) (Post : A → Prop) (m : Run A)
  : Prop :=
  ∀ csv, ∃ rows, (m csv).2 = csv ++ rows
                 ∧ Forall P rows
                 ∧ ∀ a, (m csv).1 = Ok a → Post a.

(** The best accuracy of the window does not exceed the threshold. *)
Definition below_threshold `{Classifier} (st : Locals) : Prop :=
  Qgtb (best_test_acc st) (8 # 10) = false.

(** The classifier never scores above the threshold. *)
Definition never_above `{Classifier} : Prop :=
  ∀ m l, Qgtb (evaluate m l) (8 # 10) = false.

(** * Properties *)

Ltac by_compute := apply (bool_decide_unpack _); vm_compute; exact I.

(** ** Loops *)

Lemma bind_Ok {A B : Type} (m : outcome A) (k : A → outcome B) (b : B) :
  bind m k = Ok b → ∃ a, m = Ok a ∧ k a = Ok b.
Proof. destruct m; simpl; intros; eauto; discriminate. Qed.

(** A loop whose body cannot fail on the elements it meets ends, and an
    invariant of the body holds at its end. *)
Lemma for_each_invariant {A S : Type} (body : S → A → outcome S)
    (I : list A → S → Prop) (l : list A) (s : S) :
  I [] s →
  (∀ done x s, I done s → x ∈ l →
               ∃ s', body s x = Ok s' ∧ I (done ++ [x]) s') →
  ∃ s', for_each body s l = Ok s' ∧ I l s'.
Proof.
  intros H0 Hstep.
  assert (∀ rest done s, done ++ rest = l → I done s →
          ∃ s', for_each body s rest = Ok s' ∧ I l s') as Hgen.
  { induction rest as [|x rest IH]; intros done s0 El Hs0.
    - rewrite app_nil_r in El. subst done. simpl. eauto.
    - destruct (Hstep done x s0 Hs0) as (s1 & E1 & I1).
      { rewrite <- El. set_solver. }
      simpl. rewrite E1. simpl. apply (IH (done ++ [x])); [|done].
      by rewrite <- app_assoc. }
  eapply Hgen; [|exact H0]. reflexivity.
Qed.

(** What holds at the end of a loop that did end. *)
Lemma for_each_Ok_invariant {A S : Type} (body : S → A → outcome S)
    (I : list A → S → Prop) (l : list A) (s s' : S) :
  for_each body s l = Ok s' →
  I [] s →
  (∀ done x s s1, I done s → x ∈ l → body s x = Ok s1 → I (done ++ [x]) s1) →
  I l s'.
Proof.
  intros Hrun H0 Hstep.
  assert (∀ rest done s, done ++ rest = l → I done s →
          for_each body s rest = Ok s' → I l s') as Hgen.
  { induction rest as [|x rest IH]; intros done s0 El Hs0 Hr.
    - rewrite app_nil_r in El. subst done. simpl in Hr. congruence.
    - simpl in Hr. apply bind_Ok in Hr as (s1 & E1 & Hr).
      apply (IH (done ++ [x]) s1); [by rewrite <- app_assoc| |done].
      eapply Hstep; eauto. rewrite <- El. set_solver. }
  eapply Hgen; eauto. reflexivity.
Qed.

(** ** Closures *)

Section Closure.
Variable related : Synset → list Synset.

Local Abbreviation edge := (linked related).

Lemma tc_edge_unfold s x :
  tc edge s x ↔ ∃ y, y ∈ related s ∧ (x = y ∨ tc edge y x).
Proof.
  split.
  - intros Htc. inversion Htc as [? ? Hxy|? y ? Hxy Hyz]; subst.
    + exists x. split; [exact Hxy|by left].
    + exists y. split; [exact Hxy|by right].
  - intros (y & Hy & [->|Htc]).
    + by apply tc_once.
    + by eapply tc_l.
Qed.

(** The closure is the set of senses reachable by one or more links. *)
Lemma get_all_from_sense_reach depth sense R :
  get_all_from_sense related depth sense = Ok R →
  ∀ x, x ∈ R ↔ tc edge sense x.
Proof.
  revert sense R. induction depth as [|depth IH]; intros sense R Hrun x;
    [discriminate|].
  simpl in Hrun. rewrite tc_edge_unfold. revert x.
  apply (for_each_Ok_invariant _
           (fun done (acc : gset Synset) =>
              ∀ x, x ∈ acc ↔ ∃ y, y ∈ done ∧ (x = y ∨ tc edge y x))
           _ _ _ Hrun).
  - intros z. split; [set_solver|]. intros (y & Hy & _). by apply elem_of_nil in Hy.
  - clear Hrun. intros seen y acc acc' Hacc Hy Hbody z.
    apply bind_Ok in Hbody as (zs & Hzs & [= <-]).
    specialize (IH _ _ Hzs).
    rewrite !elem_of_union, elem_of_singleton, Hacc, IH. split.
    + intros [[(y' & Hy' & Hz) | ->] | Hz].
      * exists y'. split; [apply elem_of_app; by left|done].
      * exists y. split; [apply elem_of_app; right; by apply list_elem_of_singleton|by left].
      * exists y. split; [apply elem_of_app; right; by apply list_elem_of_singleton|by right].
    + intros (y' & Hy' & Hz). apply elem_of_app in Hy' as [Hy'|Hy'].
      * left. left. eauto.
      * apply list_elem_of_singleton in Hy' as ->. destruct Hz; auto.
Qed.

(** The recursion raises nothing when it nests within the limit. *)
Lemma get_all_from_sense_total depth sense :
  nests_within related depth sense = true →
  ∃ R, get_all_from_sense related depth sense = Ok R.
Proof.
  revert sense. induction depth as [|depth IH]; intros sense Hn; [discriminate|].
  simpl in *. rewrite forallb_forall in Hn.
  destruct (for_each_invariant
              (fun (result : gset Synset) y =>
                 bind (get_all_from_sense related depth y)
                      (fun zs => Ok (result ∪ {[ y ]} ∪ zs)))
              (fun _ _ => True) (related sense) ∅) as (R & HR & _); eauto.
  intros seen y acc _ Hy.
  destruct (IH y) as (zs & Hzs).
  { apply Hn. by apply list_elem_of_In. }
  rewrite Hzs. simpl. eauto.
Qed.

End Closure.

(** ** Tables *)

Lemma find_entry_Some table n e :
  find_entry table n = Some e → e ∈ table ∧ entry_name e = n.
Proof.
  induction table as [|e' table IH]; simpl; [discriminate|].
  destruct (String.eqb (entry_name e') n) eqn:E.
  - intros [= <-]. apply String.eqb_eq in E. split; [apply elem_of_cons; by left|done].
  - intros Hf. destruct (IH Hf) as [Hin Hn]. split; [apply elem_of_cons; by right|done].
Qed.

Lemma existsb_eqb_elem (x : string) (l : list string) :
  existsb (String.eqb x) l = true → x ∈ l.
Proof.
  rewrite existsb_exists. intros (y & Hy & E). apply String.eqb_eq in E as ->.
  by apply list_elem_of_In.
Qed.

Lemma forallb_elem {A : Type} (f : A → bool) (l : list A) x :
  forallb f l = true → x ∈ l → f x = true.
Proof. rewrite forallb_forall. intros Hf Hx. apply Hf. by apply list_elem_of_In. Qed.

Lemma mirrored_table_sound table :
  mirrored_table table = true → mirrored (wordnet_of table).
Proof.
  intros Hm a b. unfold wordnet_of; simpl. split.
  - destruct (find_entry table a) as [e|] eqn:Ea; simpl; [|by intros ?%elem_of_nil].
    intros Hb. apply find_entry_Some in Ea as [Hin <-].
    pose proof (forallb_elem _ _ _ Hm Hin) as He. simpl in He.
    apply andb_prop in He as [He _].
    pose proof (forallb_elem _ _ _ He Hb) as Hp. simpl in Hp.
    destruct (find_entry table b) as [e'|]; [|discriminate]. simpl.
    by apply existsb_eqb_elem.
  - destruct (find_entry table b) as [e|] eqn:Eb; simpl; [|by intros ?%elem_of_nil].
    intros Ha. apply find_entry_Some in Eb as [Hin <-].
    pose proof (forallb_elem _ _ _ Hm Hin) as He. simpl in He.
    apply andb_prop in He as [_ He].
    pose proof (forallb_elem _ _ _ He Ha) as Hp. simpl in Hp.
    destruct (find_entry table a) as [e'|]; [|discriminate]. simpl.
    by apply existsb_eqb_elem.
Qed.

Lemma levelled_sound level table s p :
  levelled level table = true →
  canonical_parent (wordnet_of table) s = Some p →
  (level p < level s)%nat.
Proof.
  intros Hl. unfold canonical_parent, wordnet_of; simpl.
  destruct (find_entry table s) as [e|] eqn:Es; simpl; [|discriminate].
  intros Hp. apply find_entry_Some in Es as [Hin <-].
  pose proof (forallb_elem _ _ _ Hl Hin) as He. simpl in He.
  rewrite Hp in He. by apply Nat.ltb_lt.
Qed.

(** ** The two closures mirror each other *)

Lemma tc_mirror wn a b :
  mirrored wn → tc (hyponym_of wn) a b ↔ tc (hypernym_of wn) b a.
Proof.
  intros Hm. split.
  - induction 1 as [x y Hxy|x y z Hxy _ IH].
    + apply tc_once. by apply Hm.
    + eapply tc_r; [exact IH|]. by apply Hm.
  - induction 1 as [x y Hxy|x y z Hxy _ IH].
    + apply tc_once. by apply Hm.
    + eapply tc_r; [exact IH|]. by apply Hm.
Qed.

(** ** [random_non_hyponym] *)

Lemma call_member self rng tick r :
  GetRandomSynset.call self rng tick = Ok r →
  r ∈ GetRandomSynset.entity_hyps self.
Proof.
  unfold GetRandomSynset.call.
  destruct (elements _ !! _) as [x|] eqn:E; [|discriminate].
  intros [= <-]. apply elem_of_elements. by eapply list_elem_of_lookup_2.
Qed.

Lemma call_nonempty self rng tick :
  GetRandomSynset.entity_hyps self ≠ ∅ →
  ∃ r, GetRandomSynset.call self rng tick = Ok r.
Proof.
  intros Hne. unfold GetRandomSynset.call.
  destruct (elements (GetRandomSynset.entity_hyps self)) as [|x l] eqn:E.
  { apply elements_empty_inv in E. by apply leibniz_equiv in E. }
  destruct ((x :: l) !! (rng tick mod length (x :: l))%nat) as [r|] eqn:El; [eauto|].
  apply lookup_ge_None in El.
  pose proof (Nat.mod_upper_bound (rng tick) (length (x :: l))) as Hb.
  simpl in *. lia.
Qed.

(** After [k] rejected draws the loop is where it started, [k] draws on. *)
Lemma random_non_hyponym_skip wn limit self rng synset k fuel tick :
  (∀ j, (j < k)%nat → rejected wn limit self rng synset (tick + j)) →
  GetRandomSynset.random_non_hyponym wn limit self rng (k + fuel) tick synset
  = GetRandomSynset.random_non_hyponym wn limit self rng fuel (tick + k) synset.
Proof.
  revert tick. induction k as [|k IH]; intros tick Hrej.
  - by rewrite Nat.add_0_r.
  - destruct (Hrej 0%nat) as (r & hs & Hc & Hh & Hin); [lia|].
    rewrite Nat.add_0_r in Hc. simpl. rewrite Hc. simpl. rewrite Hh. simpl.
    destruct (decide (synset ∉ hs)) as [Hn|_]; [done|].
    rewrite IH.
    + f_equal. lia.
    + intros j Hj. replace (S tick + j)%nat with (tick + S j)%nat by lia.
      apply Hrej. lia.
Qed.

Lemma random_non_hyponym_Ok wn limit self rng fuel tick synset r :
  GetRandomSynset.random_non_hyponym wn limit self rng fuel tick synset = Ok r →
  ∃ t, accepted wn limit self rng synset t r.
Proof.
  revert tick. induction fuel as [|fuel IH]; intros tick; [discriminate|].
  simpl. intros Hrun.
  apply bind_Ok in Hrun as (x & Hx & Hrun).
  apply bind_Ok in Hrun as (hs & Hhs & Hrun).
  destruct (decide (synset ∉ hs)) as [Hn|_].
  - injection Hrun as <-. exists tick. split; eauto.
  - eauto.
Qed.

(** C1: a synset [r] returned by [random_non_hyponym(s)] was drawn from
    the sampler's closure and [s] is not among all the hypernyms of [r];
    hypernym and hyponym pointers mirroring each other, [r] is then
    outside the hyponym closure of [s], so that a puzzle of four members
    of that closure followed by [r] has its first four elements inside the
    closure and its last element outside. *)
Theorem random_non_hyponym_outside_closure
    (wn : WordNet) (limit limit' : nat) (self : GetRandomSynset.t)
    (rng : nat → nat) (fuel tick : nat) (s r : Synset)
    (closure : gset Synset) (siblings : list Synset) :
  mirrored wn →
  GetRandomSynset.random_non_hyponym wn limit self rng fuel tick s = Ok r →
  get_all_hyponyms_from_sense wn limit' s = Ok closure →
  Forall (fun x => x ∈ closure) siblings →
  length siblings = 4%nat →
  r ∈ GetRandomSynset.entity_hyps self
  ∧ (∃ hs, get_all_hypernyms_from_sense wn limit r = Ok hs ∧ s ∉ hs)
  ∧ ¬ tc (hypernym_of wn) r s
  ∧ (r ∉ closure)
  ∧ (∀ i x, (i < 4)%nat → (assemble_puzzle siblings r) !! i = Some x → x ∈ closure)
  ∧ (assemble_puzzle siblings r) !! 4%nat = Some r.
Proof.
  intros Hm Hrun Hcl Hsib Hlen.
  destruct (random_non_hyponym_Ok _ _ _ _ _ _ _ _ Hrun) as (t & Hcall & hs & Hhs & Hout).
  assert (¬ tc (hypernym_of wn) r s) as Hno.
  { intros Htc. apply Hout.
    by apply (get_all_from_sense_reach _ _ _ _ Hhs). }
  split; [by eapply call_member|].
  split; [by eauto|]. split; [done|]. split.
  - intros Hin. apply Hno. apply tc_mirror; [done|].
    by apply (get_all_from_sense_reach _ _ _ _ Hcl).
  - unfold assemble_puzzle. split.
    + intros i x Hi Hx. rewrite lookup_app_l in Hx by lia.
      rewrite Forall_forall in Hsib. apply Hsib. by eapply list_elem_of_lookup_2.
    + rewrite lookup_app_r by lia. by rewrite Hlen.
Qed.

Lemma random_non_hyponym_outside_closure_witness :
  GetRandomSynset.random_non_hyponym animals 10
    (sampler_at animals 10 "entity.n.01") (fun t => 3 - t)%nat 5 0 "dog.n.01"
  = Ok "dog.n.01"
  ∧ ("dog.n.01" ∉ ({[ "puppy.n.01" ]} : gset Synset))
  ∧ (assemble_puzzle (replicate 4 "puppy.n.01") "dog.n.01") !! 4%nat
    = Some "dog.n.01".
Proof.
  split; [vm_compute; reflexivity|].
  refine (let H := random_non_hyponym_outside_closure animals 10 10
                     (sampler_at animals 10 "entity.n.01") (fun t => 3 - t)%nat
                     5 0 "dog.n.01" "dog.n.01" {[ "puppy.n.01" ]}
                     (replicate 4 "puppy.n.01") _ _ _ _ _ in _).
  - split; [apply H|apply H].
  Unshelve.
  + apply mirrored_table_sound. vm_compute. reflexivity.
  + vm_compute. reflexivity.
  + vm_compute. reflexivity.
  + repeat constructor; apply elem_of_singleton; reflexivity.
  + reflexivity.
Defined.

(** C2 as amended: [random_non_hyponym] has no retry cap and no failure
    result.  After any number [k] of rejected draws it is still running
    and draws again; it returns the first draw that is outside the
    excluded closure, as soon as the loop has run long enough to make
    that draw. *)
Theorem random_non_hyponym_no_cap
    (wn : WordNet) (limit : nat) (self : GetRandomSynset.t)
    (rng : nat → nat) (tick : nat) (synset : Synset) (k : nat) :
  (∀ j, (j < k)%nat → rejected wn limit self rng synset (tick + j)) →
  GetRandomSynset.random_non_hyponym wn limit self rng k tick synset
  = StillRunning
  ∧ (∀ r, accepted wn limit self rng synset (tick + k) r →
          ∀ fuel, (k < fuel)%nat →
          GetRandomSynset.random_non_hyponym wn limit self rng fuel tick synset
          = Ok r).
Proof.
  intros Hrej. split.
  - rewrite <- (Nat.add_0_r k) at 1.
    by rewrite random_non_hyponym_skip.
  - intros r (Hc & hs & Hhs & Hout) fuel Hf.
    replace fuel with (k + S (fuel - S k))%nat by lia.
    rewrite random_non_hyponym_skip by done.
    simpl. rewrite Hc. simpl. rewrite Hhs. simpl.
    by destruct (decide (synset ∉ hs)).
Qed.

Lemma random_non_hyponym_no_cap_witness :
  GetRandomSynset.random_non_hyponym animals 10
    (sampler_at animals 10 "entity.n.01") (fun t => 3 - t)%nat 1 0 "dog.n.01"
  = StillRunning
  ∧ GetRandomSynset.random_non_hyponym animals 10
      (sampler_at animals 10 "entity.n.01") (fun t => 3 - t)%nat 2 0 "dog.n.01"
    = Ok "dog.n.01".
Proof.
  refine (let H := random_non_hyponym_no_cap animals 10
                     (sampler_at animals 10 "entity.n.01") (fun t => 3 - t)%nat
                     0 "dog.n.01" 1 _ in _).
  - split; [apply H|]. apply (proj2 H "dog.n.01"); [|lia].
    split; [vm_compute; reflexivity|].
    exists (list_to_set ["animal.n.01"; "entity.n.01"]).
    split; [vm_compute; reflexivity|].
    by_compute.
  Unshelve.
  intros j Hj. assert (j = 0%nat) as -> by lia.
  exists "puppy.n.01",
    (list_to_set ["dog.n.01"; "pet.n.01"; "animal.n.01"; "entity.n.01"]).
  split; [vm_compute; reflexivity|].
  split; [vm_compute; reflexivity|].
  by_compute.
Defined.


(** When the test fails on every member of the sampler's closure, every
    draw is rejected. *)
Lemma all_draws_rejected wn limit self rng synset :
  GetRandomSynset.entity_hyps self ≠ ∅ →
  forallb (fails_test wn limit synset)
          (elements (GetRandomSynset.entity_hyps self)) = true →
  ∀ t, rejected wn limit self rng synset t.
Proof.
  intros Hne Hall t.
  destruct (call_nonempty self rng t Hne) as (r & Hr).
  pose proof (call_member _ _ _ _ Hr) as Hin.
  apply elem_of_elements in Hin.
  pose proof (forallb_elem _ _ _ Hall Hin) as Hf. unfold fails_test in Hf.
  destruct (get_all_hypernyms_from_sense wn limit r) as [hs| |] eqn:Hhs;
    try discriminate.
  exists r, hs. split; [done|]. split; [done|].
  by apply bool_decide_eq_true in Hf.
Qed.

(** C2, the claim as stated fails: with the sampler rooted at
    [animal.n.01] every draw is a hyponym of [animal.n.01], and
    [random_non_hyponym('animal.n.01')] neither returns a synset nor
    reports a failure, however long it runs and whatever the random
    numbers are. *)
Lemma random_non_hyponym_never_returns :
  ¬ ∃ (rng : nat → nat) (fuel : nat),
      GetRandomSynset.random_non_hyponym animals 10
        (sampler_at animals 10 "animal.n.01") rng fuel 0 "animal.n.01"
      ≠ StillRunning.
Proof.
  intros (rng & fuel & Hreturns). apply Hreturns.
  rewrite <- (Nat.add_0_r fuel) at 1. rewrite random_non_hyponym_skip; [done|].
  intros j _. apply all_draws_rejected.
  - vm_compute. discriminate.
  - vm_compute. reflexivity.
Qed.

(** ** Strings *)

Module StrFacts.
Import Str.

Lemma split_nonempty sep s : split sep s ≠ [].
Proof. destruct s as [|c s]; simpl; [done|]. by repeat case_match. Qed.

Lemma join_cons_char sep c w ws :
  join sep (String c w :: ws) = String c (join sep (w :: ws)).
Proof. destruct ws; reflexivity. Qed.

Lemma join_empty_cons sep w ws :
  join sep (EmptyString :: w :: ws) = String.append sep (join sep (w :: ws)).
Proof. reflexivity. Qed.

(** Splitting at a character and joining with a one-character string
    replaces that character. *)
Lemma join_split (sep by_ : ascii) s :
  join (String by_ EmptyString) (split sep s)
  = map_chars (fun c => if Ascii.eqb c sep then by_ else c) s.
Proof.
  induction s as [|c s IH]; [reflexivity|].
  simpl. destruct (Ascii.eqb c sep) eqn:E.
  - destruct (split sep s) as [|w ws] eqn:Hs; [by apply split_nonempty in Hs|].
    rewrite join_empty_cons, IH. reflexivity.
  - destruct (split sep s) as [|w ws] eqn:Hs; [by apply split_nonempty in Hs|].
    rewrite join_cons_char, IH. reflexivity.
Qed.

Lemma lower_map s : lower s = map_chars lower_char s.
Proof. induction s; simpl; congruence. Qed.

Lemma map_chars_compose f g s :
  map_chars f (map_chars g s) = map_chars (fun c => f (g c)) s.
Proof. induction s; simpl; congruence. Qed.

Lemma map_chars_ext f g s :
  (∀ c, f c = g c) → map_chars f s = map_chars g s.
Proof. intros E. induction s; simpl; congruence. Qed.

End StrFacts.

(** C8: [normalize_lemma] turns every underscore and every hyphen into one
    space and lowercases every letter, character by character; so
    "Fire_Engine" and "fire-engine" both become "fire engine". *)
Theorem normalize_lemma_spec :
  (∀ lemma, normalize_lemma lemma = Str.map_chars normalize_char lemma)
  ∧ normalize_lemma "Fire_Engine" = "fire engine"
  ∧ normalize_lemma "fire-engine" = "fire engine".
Proof.
  split; [|split; reflexivity].
  intros lemma. unfold normalize_lemma.
  rewrite !StrFacts.join_split, StrFacts.lower_map, !StrFacts.map_chars_compose.
  apply StrFacts.map_chars_ext. intros c. unfold normalize_char.
  destruct (Ascii.eqb c "_") eqn:E1; reflexivity.
Qed.

(** ** Specificity *)

Lemma add_lemmas_elem wn (R : gset string) y t :
  t ∈ add_lemmas wn R y ↔ t ∈ R ∨ ∃ l, l ∈ lemmas wn y ∧ t = normalize_lemma l.
Proof.
  unfold add_lemmas. revert R. induction (lemmas wn y) as [|l ls IH]; intros R; simpl.
  - split; [auto|]. intros [?|(l & Hl & _)]; [done|]. by apply elem_of_nil in Hl.
  - rewrite IH, elem_of_union, elem_of_singleton. split.
    + intros [[?| ->]|(l' & Hl' & ->)]; [by left| |].
      * right. exists l. split; [apply elem_of_cons; by left|done].
      * right. exists l'. split; [apply elem_of_cons; by right|done].
    + intros [?|(l' & Hl' & ->)]; [by left; left|].
      apply elem_of_cons in Hl' as [->|Hl']; [by left; right|].
      right. eauto.
Qed.

Lemma foldl_add_lemmas_elem wn (R : gset string) ys t :
  t ∈ foldl (add_lemmas wn) R ys
  ↔ t ∈ R ∨ ∃ y l, y ∈ ys ∧ l ∈ lemmas wn y ∧ t = normalize_lemma l.
Proof.
  revert R. induction ys as [|y ys IH]; intros R; simpl.
  - split; [auto|]. intros [?|(y & l & Hy & _)]; [done|]. by apply elem_of_nil in Hy.
  - rewrite IH, add_lemmas_elem. split.
    + intros [[?|(l & Hl & ->)]|(y' & l & Hy' & Hl & ->)]; [by left| |].
      * right. exists y, l. split; [apply elem_of_cons; by left|done].
      * right. exists y', l. split; [apply elem_of_cons; by right|done].
    + intros [?|(y' & l & Hy' & Hl & ->)]; [by left; left|].
      apply elem_of_cons in Hy' as [->|Hy'].
      * left. right. eauto.
      * right. eauto.
Qed.

(** The set whose size [evaluate] stores holds exactly the tokens of
    the sense and of its hyponym closure. *)
Lemma get_all_lemmas_from_sense_tokens wn limit sense all :
  get_all_lemmas_from_sense wn limit sense = Ok all →
  ∀ t, t ∈ all ↔ token_under wn sense t.
Proof.
  unfold get_all_lemmas_from_sense. intros Hrun t.
  apply bind_Ok in Hrun as (ys & Hys & [= <-]).
  pose proof (get_all_from_sense_reach _ _ _ _ Hys) as Hreach.
  rewrite foldl_add_lemmas_elem, add_lemmas_elem. unfold token_under, in_subtree.
  split.
  - intros [[Hin|(l & Hl & ->)]|(y & l & Hy & Hl & ->)].
    + by apply not_elem_of_empty in Hin.
    + exists sense, l. auto.
    + exists y, l. split; [|done]. right. apply Hreach. by apply elem_of_elements.
  - intros (y & l & [->|Htc] & Hl & ->).
    + left. right. eauto.
    + right. exists y, l. split; [|done]. apply elem_of_elements. by apply Hreach.
Qed.

Lemma get_all_lemmas_from_sense_total wn limit sense :
  nests_within (hyponyms wn) limit sense = true →
  ∃ all, get_all_lemmas_from_sense wn limit sense = Ok all.
Proof.
  intros Hn. unfold get_all_lemmas_from_sense, get_all_hyponyms_from_sense.
  destruct (get_all_from_sense_total _ _ _ Hn) as (ys & ->). simpl. eauto.
Qed.

Lemma specificity_of_Ok wn limit sense all :
  get_all_lemmas_from_sense wn limit sense = Ok all →
  specificity_of wn limit sense = size all.
Proof. unfold specificity_of. by intros ->. Qed.

(** The two ways [evaluate] can return. *)
Lemma evaluate_Ok wn limit (cache : gmap string nat) sense spec cache' :
  Specificity.evaluate wn limit cache sense = Ok (spec, cache') →
  (cache !! sense = Some spec ∧ cache' = cache)
  ∨ (cache !! sense = None
     ∧ ∃ all, get_all_lemmas_from_sense wn limit sense = Ok all
              ∧ spec = size all ∧ cache' = <[ sense := spec ]> cache).
Proof.
  unfold Specificity.evaluate, name.
  destruct (cache !! sense) as [v|] eqn:Ec; simpl.
  - rewrite Ec. intros [= <- <-]. by left.
  - destruct (get_all_lemmas_from_sense wn limit sense) as [all| |] eqn:Ea;
      simpl; try discriminate.
    rewrite lookup_insert_eq. intros [= <- <-]. right. eauto.
Qed.

Lemma evaluate_hit wn limit (cache : gmap string nat) sense spec :
  cache !! sense = Some spec →
  Specificity.evaluate wn limit cache sense = Ok (spec, cache).
Proof.
  unfold Specificity.evaluate, name. intros Hc. rewrite Hc. simpl.
  by rewrite Hc.
Qed.

Lemma evaluate_miss wn limit (cache : gmap string nat) sense all :
  cache !! sense = None →
  get_all_lemmas_from_sense wn limit sense = Ok all →
  Specificity.evaluate wn limit cache sense
  = Ok (size all, <[ sense := size all ]> cache).
Proof.
  unfold Specificity.evaluate, name. intros Hc Ha. rewrite Hc, Ha. simpl.
  by rewrite lookup_insert_eq.
Qed.

(** [evaluate] only adds entries. *)
Lemma evaluate_extends wn limit (cache : gmap string nat) sense spec cache' :
  Specificity.evaluate wn limit cache sense = Ok (spec, cache') →
  cache ⊆ cache'.
Proof.
  intros [[_ ->]|(Hnone & _ & _ & _ & ->)]%evaluate_Ok; [done|].
  by apply insert_subseteq.
Qed.

(** Every stored score is the score of its key. *)
Lemma cache_state_sound wn limit cache :
  cache_state wn limit cache →
  ∀ n v, cache !! n = Some v →
         ∃ all, get_all_lemmas_from_sense wn limit n = Ok all ∧ v = size all.
Proof.
  induction 1 as [|cache sense spec cache' _ IH Hev]; intros n v Hn.
  - unfold Specificity.init in Hn. by rewrite lookup_empty in Hn.
  - apply evaluate_Ok in Hev as [[_ ->]|(_ & all & Ha & -> & ->)]; [eauto|].
    destruct (decide (sense = n)) as [->|Hne].
    + rewrite lookup_insert_eq in Hn. injection Hn as <-. eauto.
    + rewrite lookup_insert_ne in Hn by done. eauto.
Qed.

(** C3: on a [Specificity] object, in any state its cache can be in,
    [evaluate(c)] returns the number of distinct normalized lemma tokens
    of [c] and of the members of its hyponym closure; [evaluate] never
    changes an entry the cache already holds, and every later call for
    [c] on that object returns the same number. *)
Theorem specificity_evaluate_counts_tokens
    (wn : WordNet) (limit : nat) (cache : gmap string nat) (c : Synset) :
  cache_state wn limit cache →
  nests_within (hyponyms wn) limit c = true →
  ∃ (tokens : gset string) (cache' : gmap string nat),
    Specificity.evaluate wn limit cache c = Ok (size tokens, cache')
    ∧ (∀ t, t ∈ tokens ↔ token_under wn c t)
    ∧ cache_state wn limit cache'
    ∧ (∀ later, cache' ⊆ later →
                Specificity.evaluate wn limit later c = Ok (size tokens, later))
    ∧ (∀ held sense spec held',
          Specificity.evaluate wn limit held sense = Ok (spec, held') →
          ∀ n v, held !! n = Some v → held' !! n = Some v).
Proof.
  intros Hstate Hn.
  destruct (get_all_lemmas_from_sense_total _ _ _ Hn) as (all & Hall).
  assert (∃ cache', Specificity.evaluate wn limit cache c = Ok (size all, cache')
                    ∧ cache' !! c = Some (size all)) as (cache' & Hev & Hc').
  { destruct (cache !! c) as [v|] eqn:Ec.
    - destruct (cache_state_sound _ _ _ Hstate _ _ Ec) as (all' & Ha' & ->).
      assert (all' = all) as -> by congruence.
      exists cache. split; [by apply evaluate_hit|done].
    - exists (<[ c := size all ]> cache).
      split; [by apply evaluate_miss|by rewrite lookup_insert_eq]. }
  exists all, cache'. split; [done|].
  split; [by apply get_all_lemmas_from_sense_tokens with limit|].
  split; [by eapply cache_evaluate|]. split.
  - intros later Hsub. apply evaluate_hit.
    by eapply lookup_weaken.
  - intros held sense spec held' Hev' n v Hheld.
    eapply lookup_weaken; [exact Hheld|]. by eapply evaluate_extends.
Qed.

Lemma specificity_evaluate_counts_tokens_witness :
  ∃ (tokens : gset string) (cache' : gmap string nat),
    Specificity.evaluate animals 10 Specificity.init "animal.n.01"
    = Ok (size tokens, cache')
    ∧ (∀ t, t ∈ tokens ↔ token_under animals "animal.n.01" t).
Proof.
  destruct (specificity_evaluate_counts_tokens animals 10 Specificity.init
              "animal.n.01") as (tokens & cache' & H1 & H2 & _).
  - apply cache_init.
  - vm_compute. reflexivity.
  - exists tokens, cache'. split; [exact H1|exact H2].
Defined.

(** ** [hypernym_chain] *)

Lemma wf_of_level wn (level : Synset → nat) :
  (∀ s p, canonical_parent wn s = Some p → (level p < level s)%nat) →
  well_founded (parent_of wn).
Proof.
  intros Hl. apply (well_founded_lt_compat _ level).
  intros p s Hp. by apply Hl.
Qed.

Lemma no_parent_cycle wn s :
  Acc (parent_of wn) s → ¬ tc (flip (parent_of wn)) s s.
Proof.
  induction 1 as [s _ IH]. intros Hcycle.
  assert (∃ p, parent_of wn p s ∧ rtc (flip (parent_of wn)) p s) as (p & Hp & Hps).
  { inversion Hcycle as [? ? Hsp|? p ? Hsp Hps]; subst.
    - exists s. split; [exact Hsp|apply rtc_refl].
    - exists p. split; [exact Hsp|by apply tc_rtc]. }
  apply (IH p Hp). eapply tc_rtc_l; [exact Hps|]. by apply tc_once.
Qed.

Lemma ascent_exists wn s : Acc (parent_of wn) s → ∃ l, ascent wn s l.
Proof.
  induction 1 as [s _ IH].
  destruct (hypernyms wn s) as [|p rest] eqn:E.
  - exists [s]. by apply ascent_top.
  - destruct (IH p) as (l & Hl).
    { unfold parent_of, canonical_parent. by rewrite E. }
    exists (s :: l). apply (ascent_step wn s p l); [|done].
    unfold canonical_parent. by rewrite E.
Qed.

Lemma ascent_head wn s l : ascent wn s l → head l = Some s.
Proof. by destruct 1. Qed.

(** The loop appends the path above [s] to what it was given, once it
    has iterations enough; more iterations change nothing. *)
Lemma hypernym_chain_loop_ascent wn s l :
  ascent wn s l →
  ∀ fuel result, (length l ≤ fuel)%nat →
    hypernym_chain_loop wn fuel s result = Ok (result ++ tail l).
Proof.
  induction 1 as [s Htop|s p l Hp Hasc IH]; intros fuel result Hfuel.
  - destruct fuel as [|fuel]; [simpl in Hfuel; lia|].
    simpl. rewrite Htop. by rewrite app_nil_r.
  - destruct fuel as [|fuel]; [simpl in Hfuel; lia|].
    simpl. unfold canonical_parent in Hp.
    destruct (hypernyms wn s) as [|p' rest]; [discriminate|].
    injection Hp as ->. rewrite IH by (simpl in Hfuel; lia).
    rewrite <- app_assoc. f_equal.
    pose proof (ascent_head _ _ _ Hasc) as Hh.
    destruct l as [|x l]; [discriminate|]. by injection Hh as ->.
Qed.

Lemma ascent_linked wn s l :
  ascent wn s l →
  ∀ i a b, l !! i = Some a → l !! S i = Some b → canonical_parent wn a = Some b.
Proof.
  induction 1 as [s Htop|s p l Hp Hasc IH]; intros i a b Ha Hb.
  - by destruct i.
  - destruct i as [|i].
    + injection Ha as <-. simpl in Hb.
      pose proof (ascent_head _ _ _ Hasc) as Hh.
      destruct l as [|x l]; [discriminate|]. simpl in *. congruence.
    + simpl in Ha, Hb. eauto.
Qed.

Lemma ascent_last wn s l :
  ascent wn s l → ∃ top, last l = Some top ∧ hypernyms wn top = [].
Proof.
  induction 1 as [s Htop|s p l Hp Hasc (top & Hl & Ht)].
  - exists s. by split.
  - exists top. split; [|done].
    destruct l as [|x l]; [discriminate|]. exact Hl.
Qed.

Lemma ascent_above wn s l x :
  ascent wn s l → x ∈ tail l → tc (flip (parent_of wn)) s x.
Proof.
  induction 1 as [s Htop|s p l Hp Hasc IH]; simpl.
  - by intros ?%elem_of_nil.
  - intros Hx. pose proof (ascent_head _ _ _ Hasc) as Hh.
    destruct l as [|y l]; [by apply elem_of_nil in Hx|].
    injection Hh as ->.
    apply elem_of_cons in Hx as [->|Hx]; [by apply tc_once|].
    eapply tc_l; [exact Hp|]. by apply IH.
Qed.

Lemma ascent_NoDup wn s l :
  well_founded (parent_of wn) → ascent wn s l → NoDup l.
Proof.
  intros Hwf. induction 1 as [s Htop|s p l Hp Hasc IH].
  - apply NoDup_singleton.
  - apply NoDup_cons. split; [|done].
    intros Hs. apply (no_parent_cycle wn s (Hwf s)).
    pose proof (ascent_head _ _ _ Hasc) as Hh.
    destruct l as [|y l]; [discriminate|]. injection Hh as ->.
    apply elem_of_cons in Hs as [<-|Hs]; [by apply tc_once|].
    eapply tc_l; [exact Hp|]. by eapply ascent_above.
Qed.

(** With iterations enough, [hypernym_chain] returns the path from the
    named synset to the root. *)
Lemma hypernym_chain_returns wn c synset :
  well_founded (parent_of wn) →
  wn_synset wn c = Some synset →
  ∃ chain, ascent wn synset chain
           ∧ ∀ fuel, (length chain ≤ fuel)%nat →
                     hypernym_chain wn fuel c = Ok chain.
Proof.
  intros Hwf Hc.
  destruct (ascent_exists wn synset (Hwf synset)) as (l & Hl).
  exists l. split; [done|].
  intros fuel Hfuel. unfold hypernym_chain, lookup_synset. rewrite Hc. simpl.
  rewrite (hypernym_chain_loop_ascent _ _ _ Hl) by done.
  pose proof (ascent_head _ _ _ Hl) as Hh.
  destruct l as [|x l]; [discriminate|]. by injection Hh as ->.
Qed.

(** C6: in a hierarchy where following first hypernyms cannot go on for
    ever (a rooted DAG), [hypernym_chain(c)] returns, for the name [c] of
    a synset, a finite list that starts with that synset, in which each
    next element is the first hypernym of the one before, that ends at a
    synset without hypernyms, and that has no repeated element. *)
Theorem hypernym_chain_canonical_path
    (wn : WordNet) (c : string) (synset : Synset) :
  well_founded (parent_of wn) →
  wn_synset wn c = Some synset →
  ∃ (chain : list Synset),
    (∀ fuel, (length chain ≤ fuel)%nat → hypernym_chain wn fuel c = Ok chain)
    ∧ head chain = Some synset
    ∧ (∀ i a b, chain !! i = Some a → chain !! S i = Some b →
                canonical_parent wn a = Some b)
    ∧ (∃ top, last chain = Some top ∧ hypernyms wn top = [])
    ∧ NoDup chain.
Proof.
  intros Hwf Hc.
  destruct (hypernym_chain_returns wn c synset Hwf Hc) as (l & Hl & Hrun).
  exists l. split; [exact Hrun|split; [|split; [|split]]].
  - by eapply ascent_head.
  - by eapply ascent_linked.
  - by eapply ascent_last.
  - by eapply ascent_NoDup.
Qed.

Lemma animals_wf : well_founded (parent_of animals).
Proof.
  apply (wf_of_level _ animals_level). intros s p.
  apply levelled_sound. vm_compute. reflexivity.
Qed.

Lemma hypernym_chain_canonical_path_witness :
  ∃ chain : list Synset,
    hypernym_chain animals (length chain) "puppy.n.01" = Ok chain
    ∧ head chain = Some "puppy.n.01" ∧ NoDup chain.
Proof.
  destruct (hypernym_chain_canonical_path animals "puppy.n.01" "puppy.n.01")
    as (chain & H1 & H2 & _ & _ & H5).
  - exact animals_wf.
  - vm_compute. reflexivity.
  - exists chain. split; [apply H1; lia|]. split; [exact H2|exact H5].
Defined.

(** ** [get_flatness_from_sense] *)

Lemma ratio_bounds (a b : nat) :
  (0 < a)%nat →
  (0 < inject_Z (Z.of_nat a) / inject_Z (Z.of_nat (b + a)))%Q
  ∧ (inject_Z (Z.of_nat a) / inject_Z (Z.of_nat (b + a)) <= 1)%Q.
Proof.
  intros Ha.
  assert (0 < inject_Z (Z.of_nat (b + a)))%Q as Hden.
  { unfold Qlt, inject_Z. simpl. lia. }
  split.
  - apply Qlt_shift_div_l; [exact Hden|].
    rewrite Qmult_0_l. unfold Qlt, inject_Z. simpl. lia.
  - apply Qle_shift_div_r; [exact Hden|].
    rewrite Qmult_1_l. unfold Qle, inject_Z. simpl. lia.
Qed.

(** The two sets the loop of [get_flatness_from_sense] builds. *)
Lemma flatness_loop wn limit sense :
  forallb (nests_within (hyponyms wn) limit) (hyponyms wn sense) = true →
  ∃ children non_children : gset Synset,
    flatness_sets wn limit sense = Ok (children, non_children)
    ∧ (∀ y, y ∈ children ↔ y ∈ hyponyms wn sense)
    ∧ (∀ z, z ∈ non_children
            ↔ ∃ y, y ∈ hyponyms wn sense ∧ tc (hyponym_of wn) y z).
Proof.
  intros Hn. unfold flatness_sets.
  match goal with
  | |- ∃ c n, for_each ?body _ _ = _ ∧ _ =>
      destruct (for_each_invariant body
        (fun seen (st : gset Synset * gset Synset) =>
           (∀ y, y ∈ st.1 ↔ y ∈ seen)
           ∧ (∀ z, z ∈ st.2 ↔ ∃ y, y ∈ seen ∧ tc (hyponym_of wn) y z))
        (hyponyms wn sense) (∅, ∅))
        as ([children non_children] & Hrun & Hc & Hnc)
  end.
  - simpl. split.
    + intros y. split; [by intros ?%not_elem_of_empty|by intros ?%elem_of_nil].
    + intros z. split; [by intros ?%not_elem_of_empty|].
      intros (y & Hy & _). by apply elem_of_nil in Hy.
  - intros seen y [children non_children] [Hc Hnc] Hy. simpl in Hc, Hnc.
    destruct (get_all_from_sense_total (hyponyms wn) limit y) as (zs & Hzs).
    { by eapply forallb_elem. }
    unfold get_all_hyponyms_from_sense. rewrite Hzs. simpl.
    eexists. split; [reflexivity|]. simpl.
    pose proof (get_all_from_sense_reach _ _ _ _ Hzs) as Hreach. split.
    + intros x. rewrite elem_of_union, elem_of_singleton, elem_of_app,
        list_elem_of_singleton, Hc. done.
    + intros z. rewrite elem_of_union, Hnc, Hreach. split.
      * intros [(y' & Hy' & Hz)|Hz].
        -- exists y'. split; [apply elem_of_app; by left|done].
        -- exists y. split; [apply elem_of_app; right; by apply list_elem_of_singleton|done].
      * intros (y' & Hy' & Hz). apply elem_of_app in Hy' as [Hy'|Hy'].
        -- left. eauto.
        -- apply list_elem_of_singleton in Hy' as ->. by right.
  - exists children, non_children. by split.
Qed.

(** C9: a sense without hyponyms gets the value 1 and nothing is
    divided; a sense with hyponyms gets the number of its direct
    children divided by that number plus the number of the children's
    descendants, a value above 0 and at most 1.  (The quotient of the two
    counts is an exact fraction here; Python rounds it to a float.) *)
Theorem get_flatness_from_sense_ratio (wn : WordNet) (limit : nat) (sense : Synset) :
  (hyponyms wn sense = [] → get_flatness_from_sense wn limit sense = Ok 1%Q)
  ∧ (hyponyms wn sense ≠ [] →
     forallb (nests_within (hyponyms wn) limit) (hyponyms wn sense) = true →
     ∃ (children non_children : gset Synset) (q : Q),
       get_flatness_from_sense wn limit sense = Ok q
       ∧ (∀ y, y ∈ children ↔ y ∈ hyponyms wn sense)
       ∧ (∀ z, z ∈ non_children
               ↔ ∃ y, y ∈ hyponyms wn sense ∧ tc (hyponym_of wn) y z)
       ∧ q = (inject_Z (Z.of_nat (size children))
              / inject_Z (Z.of_nat (size non_children + size children)))%Q
       ∧ (0 < q)%Q ∧ (q <= 1)%Q).
Proof.
  split.
  - intros Hnone. unfold get_flatness_from_sense, flatness_sets.
    rewrite Hnone. reflexivity.
  - intros Hsome Hn.
    destruct (flatness_loop wn limit sense Hn)
      as (children & non_children & Hrun & Hc & Hnc).
    assert (0 < size children)%nat as Hpos.
    { destruct (hyponyms wn sense) as [|y l]; [done|].
      assert (y ∈ children) as Hy by (apply Hc, elem_of_cons; by left).
      destruct (size children) eqn:Hsize; [|lia].
      apply size_empty_inv in Hsize. by apply Hsize in Hy. }
    exists children, non_children. eexists.
    split; [|split; [exact Hc|split; [exact Hnc|split; [reflexivity|]]]].
    + unfold get_flatness_from_sense. rewrite Hrun. simpl.
      destruct (decide (size non_children + size children ≠ 0)%nat) as [_|Hz];
        [reflexivity|lia].
    + by apply ratio_bounds.
Qed.

Lemma get_flatness_from_sense_ratio_witness :
  get_flatness_from_sense animals 10 "cat.n.01" = Ok 1%Q
  ∧ ∃ q, get_flatness_from_sense animals 10 "animal.n.01" = Ok q
         ∧ (0 < q)%Q ∧ (q <= 1)%Q.
Proof.
  split.
  - apply (proj1 (get_flatness_from_sense_ratio animals 10 "cat.n.01")).
    reflexivity.
  - destruct (proj2 (get_flatness_from_sense_ratio animals 10 "animal.n.01"))
      as (children & non_children & q & Hq & _ & _ & _ & Hpos & Hle).
    + discriminate.
    + vm_compute. reflexivity.
    + exists q. split; [exact Hq|]. split; [exact Hpos|exact Hle].
Defined.

(** ** [find_lowest_common_ancestor] *)

Lemma nests_within_table table limit :
  forallb (fun e => nests_within (hyponyms (wordnet_of table)) (S limit)
                                 (entry_name e)) table = true →
  ∀ h, nests_within (hyponyms (wordnet_of table)) (S limit) h = true.
Proof.
  intros Hall h. destruct (find_entry table h) as [e|] eqn:E.
  - apply find_entry_Some in E as [Hin <-]. by apply (forallb_elem _ _ _ Hall).
  - simpl. by rewrite E.
Qed.

(** A call of [evaluate] on a sound cache returns the score of the
    sense and leaves a sound cache. *)
Lemma evaluate_returns wn limit cache sense :
  cache_state wn limit cache →
  nests_within (hyponyms wn) limit sense = true →
  ∃ cache', Specificity.evaluate wn limit cache sense
            = Ok (specificity_of wn limit sense, cache')
            ∧ cache_state wn limit cache'.
Proof.
  intros Hstate Hn.
  destruct (get_all_lemmas_from_sense_total _ _ _ Hn) as (all & Hall).
  rewrite (specificity_of_Ok _ _ _ _ Hall).
  destruct (cache !! sense) as [v|] eqn:Ec.
  - destruct (cache_state_sound _ _ _ Hstate _ _ Ec) as (all' & Ha' & ->).
    assert (all' = all) as -> by congruence.
    exists cache. split; [by apply evaluate_hit|done].
  - exists (<[ sense := size all ]> cache).
    assert (Specificity.evaluate wn limit cache sense
            = Ok (size all, <[ sense := size all ]> cache)) as Hev
      by (by apply evaluate_miss).
    split; [done|]. by eapply cache_evaluate.
Qed.

Lemma get_all_hypernyms_spec wn limit word :
  forallb (nests_within (hypernyms wn) limit) (wn_synsets wn word) = true →
  ∃ hs, get_all_hypernyms wn limit word = Ok hs
        ∧ ∀ h, h ∈ hs ↔ hypernym_of_word wn word h.
Proof.
  intros Hn. unfold get_all_hypernyms, hypernym_of_word.
  match goal with
  | |- ∃ hs, for_each ?body _ _ = _ ∧ _ =>
      destruct (for_each_invariant body
        (fun seen (acc : gset Synset) =>
           ∀ h, h ∈ acc ↔ ∃ sense, sense ∈ seen ∧ tc (hypernym_of wn) sense h)
        (wn_synsets wn word) ∅) as (hs & Hrun & Hhs)
  end.
  - intros h. split; [by intros ?%not_elem_of_empty|].
    intros (y & Hy & _). by apply elem_of_nil in Hy.
  - intros seen x acc Hacc Hx.
    destruct (get_all_from_sense_total (hypernyms wn) limit x) as (ys & Hys).
    { by eapply forallb_elem. }
    unfold get_all_hypernyms_from_sense. rewrite Hys. simpl.
    eexists. split; [reflexivity|]. intros h.
    pose proof (get_all_from_sense_reach _ _ _ _ Hys) as Hreach.
    rewrite elem_of_union, Hacc, Hreach. split.
    + intros [(y & Hy & Hh)|Hh].
      * exists y. split; [apply elem_of_app; by left|done].
      * exists x. split; [apply elem_of_app; right; by apply list_elem_of_singleton|done].
    + intros (y & Hy & Hh). apply elem_of_app in Hy as [Hy|Hy].
      * left. eauto.
      * apply list_elem_of_singleton in Hy as ->. by right.
  - eauto.
Qed.

(** The loop that intersects the hypernym sets of the other words. *)
Lemma common_hypernyms_loop wn limit (common0 : gset Synset) rest :
  forallb (fun w => forallb (nests_within (hypernyms wn) limit) (wn_synsets wn w))
          rest = true →
  ∃ common,
    for_each (fun common word =>
                bind (get_all_hypernyms wn limit word)
                     (fun hs => Ok (common ∩ hs)))
             common0 rest = Ok common
    ∧ ∀ h, h ∈ common ↔ h ∈ common0 ∧ shared_hypernym wn rest h.
Proof.
  intros Hn.
  match goal with
  | |- ∃ c, for_each ?body _ _ = _ ∧ _ =>
      destruct (for_each_invariant body
        (fun seen (acc : gset Synset) =>
           ∀ h, h ∈ acc ↔ h ∈ common0 ∧ shared_hypernym wn seen h)
        rest common0) as (common & Hrun & Hcommon)
  end.
  - intros h. split; [|by intros [? _]]. intros Hh. split; [done|].
    intros w Hw. by apply elem_of_nil in Hw.
  - intros seen w acc Hacc Hw.
    destruct (get_all_hypernyms_spec wn limit w) as (hs & Hhs & Hspec).
    { by apply (forallb_elem _ _ _ Hn). }
    rewrite Hhs. simpl. eexists. split; [reflexivity|]. intros h.
    rewrite elem_of_intersection, Hacc, Hspec. unfold shared_hypernym. split.
    + intros [[Hc Hs] Hh]. split; [done|]. intros w' Hw'.
      apply elem_of_app in Hw' as [Hw'|Hw']; [by apply Hs|].
      by apply list_elem_of_singleton in Hw' as ->.
    + intros [Hc Hs]. split; [split; [done|]|].
      * intros w' Hw'. apply Hs, elem_of_app. by left.
      * apply Hs, elem_of_app. right. by apply list_elem_of_singleton.
  - eauto.
Qed.

(** The list comprehension that scores the common hypernyms. *)
Lemma scoring_loop wn limit cache (hyps : list Synset) :
  cache_state wn limit cache →
  (∀ h, h ∈ hyps → nests_within (hyponyms wn) limit h = true) →
  ∃ cache',
    for_each
      (fun '(scored, cache) hyp =>
         bind (Specificity.evaluate wn limit cache hyp)
              (fun '(spec, cache) => Ok (scored ++ [(spec, hyp)], cache)))
      ([], cache) hyps
    = Ok ((fun h => (specificity_of wn limit h, h)) <$> hyps, cache')
    ∧ cache_state wn limit cache'.
Proof.
  intros Hstate Hn.
  match goal with
  | |- ∃ c, for_each ?body _ _ = _ ∧ _ =>
      destruct (for_each_invariant body
        (fun seen (st : list (nat * Synset) * gmap string nat) =>
           st.1 = (fun h => (specificity_of wn limit h, h)) <$> seen
           ∧ cache_state wn limit st.2)
        hyps ([], cache)) as ([scored cache'] & Hrun & Hs & Hc)
  end.
  - by split.
  - intros seen h [scored c] [Hs Hc] Hh. simpl in Hs, Hc.
    destruct (evaluate_returns wn limit c h Hc (Hn h Hh)) as (c' & Hev & Hc').
    rewrite Hev. simpl. eexists. split; [reflexivity|]. simpl.
    split; [|done]. by rewrite Hs, fmap_app.
  - simpl in Hs, Hc. subst scored. eauto.
Qed.

#[local] Instance tuple_le_total : Total tuple_le.
Proof.
  intros [a s] [b t]. unfold tuple_le, tuple_leb. simpl.
  destruct (Nat.lt_trichotomy a b) as [Hlt|[->|Hgt]].
  - left. apply orb_true_iff. left. by apply Nat.ltb_lt.
  - rewrite Nat.ltb_irrefl, Nat.eqb_refl. simpl.
    apply String.leb_total.
  - right. apply orb_true_iff. left. by apply Nat.ltb_lt.
Qed.

Lemma tuple_le_score a b : tuple_le a b → (a.1 ≤ b.1)%nat.
Proof.
  unfold tuple_le, tuple_leb. intros [H|H]%orb_true_iff.
  - apply Nat.ltb_lt in H. lia.
  - apply andb_true_iff in H as [H _]. apply Nat.eqb_eq in H. lia.
Qed.

Lemma Sorted_head_least best rest :
  Sorted tuple_le (best :: rest) → ∀ x, x ∈ rest → (best.1 ≤ x.1)%nat.
Proof.
  revert best. induction rest as [|a rest IH]; intros best Hs x Hx.
  - by apply elem_of_nil in Hx.
  - apply Sorted_inv in Hs as [Hs Hhd]. apply HdRel_inv in Hhd.
    apply tuple_le_score in Hhd.
    apply elem_of_cons in Hx as [->|Hx]; [done|].
    pose proof (IH a Hs x Hx). lia.
Qed.

(** The first element of [sorted(l)] is an element of [l] of least score. *)
Lemma sorted_head l best rest :
  sorted l = best :: rest →
  best ∈ l ∧ ∀ x, x ∈ l → (best.1 ≤ x.1)%nat.
Proof.
  intros Hs. unfold sorted in Hs.
  pose proof (merge_sort_Permutation tuple_le l) as Hperm.
  pose proof (Sorted_merge_sort tuple_le l) as Hsorted.
  rewrite Hs in Hperm, Hsorted. split.
  - rewrite <- Hperm. apply elem_of_cons. by left.
  - intros x Hx. rewrite <- Hperm in Hx.
    apply elem_of_cons in Hx as [->|Hx]; [done|].
    by eapply Sorted_head_least.
Qed.

Lemma sorted_nil l : sorted l = [] → l = [].
Proof.
  intros Hs. unfold sorted in Hs.
  pose proof (merge_sort_Permutation tuple_le l) as Hperm.
  rewrite Hs in Hperm. by apply Permutation_nil_l in Hperm.
Qed.

(** C10: for a non-empty list of words [find_lowest_common_ancestor]
    returns a pair (score, synset) whose score is the specificity of the
    synset; when the words share hypernyms, the synset is one of them
    (a hypernym of some sense of every word) and no shared hypernym has a
    smaller specificity; when they share none, the synset is
    [entity.n.01]. *)
Theorem find_lowest_common_ancestor_least
    (wn : WordNet) (limit : nat) (specificity : gmap string nat)
    (words : list string) (entity : Synset) :
  words ≠ [] →
  cache_state wn limit specificity →
  wn_synset wn "entity.n.01" = Some entity →
  forallb (fun w => forallb (nests_within (hypernyms wn) limit) (wn_synsets wn w))
          words = true →
  (∀ h, shared_hypernym wn words h ∨ h = entity →
        nests_within (hyponyms wn) limit h = true) →
  ∃ (score : nat) (synset : Synset) (specificity' : gmap string nat),
    find_lowest_common_ancestor wn limit specificity words
    = Ok ((score, synset), specificity')
    ∧ score = specificity_of wn limit synset
    ∧ cache_state wn limit specificity'
    ∧ ((∃ h, shared_hypernym wn words h) →
       shared_hypernym wn words synset
       ∧ ∀ h, shared_hypernym wn words h →
              (score ≤ specificity_of wn limit h)%nat)
    ∧ ((∀ h, ¬ shared_hypernym wn words h) → synset = entity).
Proof.
  intros Hne Hstate Hentity Hup Hdown.
  destruct words as [|word0 rest]; [done|]. clear Hne.
  simpl in Hup. apply andb_prop in Hup as [Hup0 Huprest].
  destruct (get_all_hypernyms_spec wn limit word0 Hup0) as (hs0 & Hhs0 & Hspec0).
  destruct (common_hypernyms_loop wn limit hs0 rest Huprest)
    as (common & Hloop & Hcommon).
  assert (∀ h, h ∈ common ↔ shared_hypernym wn (word0 :: rest) h) as Hshared.
  { intros h. rewrite Hcommon, Hspec0. unfold shared_hypernym. split.
    - intros [H0 Hr] w Hw. apply elem_of_cons in Hw as [->|Hw]; auto.
    - intros Hs. split; [apply Hs, elem_of_cons; by left|].
      intros w Hw. apply Hs, elem_of_cons. by right. }
  unfold find_lowest_common_ancestor. rewrite Hhs0. simpl.
  rewrite Hloop. simpl.
  destruct (decide (size common = 0)%nat) as [Hempty|Hnonempty].
  - apply size_empty_inv in Hempty.
    unfold lookup_synset. rewrite Hentity. simpl.
    destruct (evaluate_returns wn limit specificity entity Hstate)
      as (cache' & Hev & Hstate'); [apply Hdown; by right|].
    rewrite Hev. simpl.
    exists (specificity_of wn limit entity), entity, cache'.
    split; [done|]. split; [done|]. split; [done|]. split; [|done].
    intros (h & Hh). apply Hshared in Hh. by apply Hempty in Hh.
  - destruct (scoring_loop wn limit specificity (elements common) Hstate)
      as (cache' & Hscore & Hstate').
    { intros h Hh. apply Hdown. left. by apply Hshared, elem_of_elements. }
    rewrite Hscore. simpl.
    destruct (sorted _) as [|[score synset] tl] eqn:Hsorted.
    { apply sorted_nil, fmap_nil_inv, elements_empty_inv in Hsorted.
      rewrite Hsorted, size_empty in Hnonempty. done. }
    apply sorted_head in Hsorted as [Hin Hleast].
    apply list_elem_of_fmap in Hin as (h & [= -> ->] & Hh).
    exists (specificity_of wn limit h), h, cache'.
    split; [done|]. split; [done|]. split; [done|]. split.
    + intros _. split; [by apply Hshared, elem_of_elements|].
      intros h' Hh'.
      apply (Hleast (specificity_of wn limit h', h')).
      apply list_elem_of_fmap. exists h'. split; [done|].
      by apply elem_of_elements, Hshared.
    + intros Hnone. exfalso. apply (Hnone h). by apply Hshared, elem_of_elements.
Qed.

Lemma find_lowest_common_ancestor_least_witness :
  ∃ (score : nat) (synset : Synset) (specificity' : gmap string nat),
    find_lowest_common_ancestor animals 10 Specificity.init ["dog"; "cat"]
    = Ok ((score, synset), specificity')
    ∧ score = specificity_of animals 10 synset.
Proof.
  destruct (find_lowest_common_ancestor_least animals 10 Specificity.init
              ["dog"; "cat"] "entity.n.01")
    as (score & synset & specificity' & H1 & H2 & _).
  - discriminate.
  - apply cache_init.
  - vm_compute. reflexivity.
  - vm_compute. reflexivity.
  - intros h _. apply (nests_within_table animals_table 9). vm_compute. reflexivity.
  - exists score, synset, specificity'. split; [exact H1|exact H2].
Defined.

(** ** [get_final_root_synset] *)

Lemma find_app_split {A : Type} (f : A → bool) (l1 l2 : list A) :
  List.find f (l1 ++ l2)
  = match List.find f l1 with
    | Some x => Some x
    | None => List.find f l2
    end.
Proof.
  induction l1 as [|x l1 IH]; simpl; [done|]. by destruct (f x).
Qed.

Lemma find_all_false {A : Type} (f : A → bool) (l : list A) :
  List.find f l = None ↔ ∀ x, x ∈ l → f x = false.
Proof.
  split.
  - intros Hf x Hx. eapply find_none; [exact Hf|]. by apply list_elem_of_In.
  - induction l as [|y l IH]; intros Hall; simpl; [done|].
    rewrite (Hall y) by (apply elem_of_cons; by left).
    apply IH. intros x Hx. apply Hall, elem_of_cons. by right.
Qed.

Lemma elem_of_rev {A : Type} (x : A) (l : list A) : x ∈ rev l ↔ x ∈ l.
Proof. rewrite !list_elem_of_In. symmetry. apply in_rev. Qed.

(** The first hit in the reversed list is the last hit of the list. *)
Lemma find_rev_last {A : Type} (f : A → bool) (l : list A) (r : A) :
  List.find f (rev l) = Some r →
  ∃ i, l !! i = Some r ∧ f r = true
       ∧ ∀ j w, (i < j)%nat → l !! j = Some w → f w = false.
Proof.
  revert r. induction l as [|x l IH]; intros r; simpl; [discriminate|].
  rewrite find_app_split.
  destruct (List.find f (rev l)) as [r'|] eqn:Hrev.
  - intros [= <-]. destruct (IH r' eq_refl) as (i & Hi & Hf & Hlast).
    exists (S i). split; [done|]. split; [done|].
    intros j w Hj Hw. destruct j as [|j]; [lia|].
    apply (Hlast j); [lia|done].
  - simpl. destruct (f x) eqn:Hfx; [|discriminate]. intros [= <-].
    exists 0%nat. split; [done|]. split; [done|].
    intros j w Hj Hw. destruct j as [|j]; [lia|]. simpl in Hw.
    apply (proj1 (find_all_false f (rev l)) Hrev).
    apply elem_of_rev. by eapply list_elem_of_lookup_2.
Qed.

(** The loop over the reversed chain finds what [scan_below] finds. *)
Lemma first_below_700_scan wn limit cache ws :
  cache_state wn limit cache →
  (∀ w, w ∈ ws → nests_within (hyponyms wn) limit w = true) →
  first_below_700 wn limit cache ws = Ok (scan_below wn limit ws).
Proof.
  revert cache. induction ws as [|w ws IH]; intros cache Hstate Hn; [done|].
  simpl. destruct (evaluate_returns wn limit cache w Hstate) as (cache' & Hev & Hs').
  { apply Hn, elem_of_cons. by left. }
  rewrite Hev. simpl. unfold scan_below. simpl.
  destruct (specificity_of wn limit w <? 700)%nat; [done|].
  apply IH; [done|]. intros w' Hw'. apply Hn, elem_of_cons. by right.
Qed.

(** C7 as amended: [get_final_root_synset] scans the hypernym chain of
    the initial concept from its root end downward and returns the first
    concept met whose specificity is below 700: of the concepts of the
    chain, the initial one included, whose specificity is below 700, the
    one nearest to the root.  It yields a concept if and only if some
    concept of the chain has a specificity below 700. *)
Theorem get_final_root_synset_nearest_root
    (wn : WordNet) (limit : nat) (initial : string) (synset : Synset) :
  well_founded (parent_of wn) →
  wn_synset wn initial = Some synset →
  (∀ w, nests_within (hyponyms wn) limit w = true) →
  ∃ (chain : list Synset) (final : option string),
    (∀ fuel, (length chain ≤ fuel)%nat →
       hypernym_chain wn fuel initial = Ok chain
       ∧ get_final_root_synset wn limit fuel initial = Ok final)
    ∧ final = first_below_downward wn limit chain
    ∧ (∀ r, final = Some r →
            ∃ i, chain !! i = Some r
                 ∧ (specificity_of wn limit r < 700)%nat
                 ∧ ∀ j w, (i < j)%nat → chain !! j = Some w →
                          (700 ≤ specificity_of wn limit w)%nat)
    ∧ (final = None
       ↔ ∀ w, w ∈ chain → (700 ≤ specificity_of wn limit w)%nat).
Proof.
  intros Hwf Hlookup Hn.
  destruct (hypernym_chain_returns wn initial synset Hwf Hlookup)
    as (chain & _ & Hchain).
  exists chain, (first_below_downward wn limit chain).
  split; [|split; [reflexivity|split]].
  - intros fuel Hfuel. split; [by apply Hchain|].
    unfold get_final_root_synset. rewrite Hchain by done. simpl.
    apply first_below_700_scan; [apply cache_init|auto].
  - intros r Hr. unfold first_below_downward, scan_below in Hr.
    apply find_rev_last in Hr as (i & Hi & Hf & Hlast).
    exists i. split; [done|]. split; [by apply Nat.ltb_lt|].
    intros j w Hj Hw. specialize (Hlast j w Hj Hw). by apply Nat.ltb_ge.
  - unfold first_below_downward, scan_below. rewrite find_all_false. split.
    + intros Hall w Hw. apply Nat.ltb_ge, Hall. by apply elem_of_rev.
    + intros Hall w Hw. apply Nat.ltb_ge, Hall. by apply elem_of_rev.
Qed.

Lemma get_final_root_synset_nearest_root_witness :
  ∃ (chain : list Synset) (final : option string),
    hypernym_chain animals (length chain) "puppy.n.01" = Ok chain
    ∧ get_final_root_synset animals 10 (length chain) "puppy.n.01" = Ok final
    ∧ final = first_below_downward animals 10 chain.
Proof.
  destruct (get_final_root_synset_nearest_root animals 10 "puppy.n.01"
              "puppy.n.01") as (chain & final & H1 & H2 & _).
  - exact animals_wf.
  - vm_compute. reflexivity.
  - apply (nests_within_table animals_table 9). vm_compute. reflexivity.
  - exists chain, final.
    split; [apply (H1 (length chain)); lia|].
    split; [apply (H1 (length chain)); lia|exact H2].
Defined.

(** C7, the claim as stated fails.  From [puppy.n.01] the chain is
    puppy, dog, animal, entity, all of specificity below 700: walking
    upward the first concept below 700 is [puppy.n.01] (or [dog.n.01],
    counting proper ancestors only), but [get_final_root_synset] returns
    [entity.n.01].  And for a synset of 700 lemmas without hypernyms it
    returns [None]. *)
Lemma get_final_root_synset_not_first_upward :
  hypernym_chain animals 10 "puppy.n.01"
  = Ok ["puppy.n.01"; "dog.n.01"; "animal.n.01"; "entity.n.01"]
  ∧ first_below_upward animals 10
      ["puppy.n.01"; "dog.n.01"; "animal.n.01"; "entity.n.01"]
    = Some "puppy.n.01"
  ∧ first_ancestor_below_upward animals 10
      ["puppy.n.01"; "dog.n.01"; "animal.n.01"; "entity.n.01"]
    = Some "dog.n.01"
  ∧ get_final_root_synset animals 10 10 "puppy.n.01" = Ok (Some "entity.n.01")
  ∧ hypernym_chain crowd 10 "crowd.n.01" = Ok ["crowd.n.01"]
  ∧ get_final_root_synset crowd 10 10 "crowd.n.01" = Ok None.
Proof.
  repeat split; vm_compute; reflexivity.
Qed.

(** ** The curriculum controller *)

Section Curriculum.
Context `{Classifier}.
Variables (wn : WordNet).
Variables (num_epochs num_puzzles_to_generate batch_size : nat).

(** Training and evaluation leave the active concept, [current_root]
    and the generator as they were. *)
Lemma train_and_evaluate_keeps epoch (st st1 : Locals) :
  train_and_evaluate num_puzzles_to_generate batch_size epoch st = Ok st1 →
  initial_root_synset st1 = initial_root_synset st
  ∧ current_root st1 = current_root st
  ∧ puzzle_generator st1 = puzzle_generator st.
Proof.
  unfold train_and_evaluate.
  destruct (maybe_regenerate _ _ _ _ _ _ _) as [[l t] d].
  intros Hrun. apply bind_Ok in Hrun as (m & _ & Hrun).
  apply bind_Ok in Hrun as ([bm acc] & _ & [= <-]). by simpl.
Qed.

(** A chain that goes above its first element has the canonical parent
    second. *)
Lemma ascent_second s p chain :
  ascent wn s chain → canonical_parent wn s = Some p → chain !! 1%nat = Some p.
Proof.
  intros Hasc Hp. destruct Hasc as [s Htop|s p' l Hp' Hasc].
  - unfold canonical_parent in Hp. by rewrite Htop in Hp.
  - assert (p' = p) as -> by congruence.
    pose proof (ascent_head _ _ _ Hasc) as Hh.
    destruct l as [|x l]; [discriminate|]. by injection Hh as ->.
Qed.

(** C4 as amended: when, after the evaluation of an epoch, the best
    accuracy exceeds 0.8 and the active concept has a hypernym, the
    active concept becomes exactly its first hypernym, the generator is
    reset to it and both puzzle sets are generated anew from it, the best
    accuracy is reset to -1, and one row with success = True, naming the
    concept just mastered, is appended to the log. *)
Theorem promotion_advances_to_canonical_parent
    (epoch : nat) (st st1 : Locals) (csv : list Row) (s p : Synset) :
  well_founded (parent_of wn) →
  train_and_evaluate num_puzzles_to_generate batch_size epoch st = Ok st1 →
  Qgtb (best_test_acc st1) (8 # 10) = true →
  wn_synset wn (initial_root_synset st) = Some s →
  canonical_parent wn s = Some p →
  ∃ n, ∀ fuel, (n ≤ fuel)%nat →
    ∃ (st' : Locals) (broke : bool) (after : list Row),
      epoch_body wn fuel num_epochs num_puzzles_to_generate batch_size
                 epoch st csv
      = (Ok (st', broke),
         csv ++ {| word := initial_root_synset st; epochs_used := epoch;
                   best_accuracy := best_test_acc st1; success := true |}
             :: after)
      ∧ Forall (fun row => success row = false) after
      ∧ initial_root_synset st' = name p
      ∧ active_root (puzzle_generator st') = Some (name p)
      ∧ (∃ l t, loader st' = Some l ∧ test_loader st' = Some t
                ∧ generated_from (dataset l) = Some (name p)
                ∧ generated_from (dataset t) = Some (name p)
                ∧ drawn (dataset l) = draws st1
                ∧ drawn (dataset t) = S (draws st1))
      ∧ best_test_acc st' = (-1)%Q
      ∧ current_root st' = Some (initial_root_synset st).
Proof.
  intros Hwf Hte Hbest Hs Hp.
  destruct (train_and_evaluate_keeps _ _ _ Hte) as (Hroot & _ & _).
  destruct (hypernym_chain_returns wn _ s Hwf Hs) as (chain & Hasc & Hchain).
  pose proof (ascent_second _ _ _ Hasc Hp) as Hsecond.
  exists (length chain). intros fuel Hfuel.
  unfold epoch_body, bind_run, lift. rewrite Hte, Hbest.
  unfold promote, bind_run, lift. rewrite Hroot, (Hchain fuel Hfuel), Hsecond.
  unfold write_to_csv, maybe_regenerate, ret, budget_check, bind_run, lift.
  simpl.
  destruct (decide (epoch = num_epochs - 1)%nat) as [Hlast|Hnot]; simpl.
  - eexists _, _, [_]. rewrite <- app_assoc. simpl.
    split; [reflexivity|]. simpl.
    split; [by repeat constructor|]. repeat split.
    eexists _, _. repeat split.
  - eexists _, _, []. split; [reflexivity|]. simpl.
    split; [constructor|]. repeat split.
    eexists _, _. repeat split.
Qed.

End Curriculum.

Lemma promotion_advances_to_canonical_parent_witness :
  ∃ (fuel : nat) (st' : @Locals perfect_classifier) (broke : bool)
    (after : list Row),
    epoch_body animals fuel 1000 20 4 99 (before_epoch_99 "dog.n.01") []
    = (Ok (st', broke),
       [] ++ {| word := "dog.n.01"; epochs_used := 99;
                best_accuracy := 1%Q; success := true |} :: after)
    ∧ initial_root_synset st' = "animal.n.01"
    ∧ best_test_acc st' = (-1)%Q.
Proof.
  destruct (@promotion_advances_to_canonical_parent perfect_classifier
              animals 1000 20 4 99 (before_epoch_99 "dog.n.01")
              {| initial_root_synset := "dog.n.01";
                 current_root := None;
                 puzzle_generator := {| active_root := Some "dog.n.01" |};
                 model := tt : @Model perfect_classifier;
                 loader := loader (before_epoch_99 "dog.n.01");
                 test_loader := test_loader (before_epoch_99 "dog.n.01");
                 best_model := Some (tt : @Model perfect_classifier);
                 best_test_acc := 1%Q;
                 draws := 2 |}
              [] "dog.n.01" "animal.n.01")
    as (n & Hn).
  - exact animals_wf.
  - vm_compute. reflexivity.
  - vm_compute. reflexivity.
  - vm_compute. reflexivity.
  - vm_compute. reflexivity.
  - destruct (Hn n) as (st' & broke & after & H1 & _ & H3 & _ & _ & H6 & _);
      [lia|].
    exists n, st', broke, after.
    split; [exact H1|]. split; [exact H3|exact H6].
Defined.

(** C4, the claim as stated fails when the active concept has no
    hypernym.  At epoch 99 with [entity.n.01] active the accuracy 1 is
    the best seen and exceeds 0.8, yet the epoch ends in an IndexError,
    no row is written and nothing advances; a run that starts at
    [dog.n.01] gets there by two promotions. *)
Lemma promotion_at_the_root_raises :
  (∃ st1, train_and_evaluate 20 4 99 (before_epoch_99 "entity.n.01") = Ok st1
          ∧ Qgtb (best_test_acc st1) (8 # 10) = true)
  ∧ epoch_body animals 10 1000 20 4 99 (before_epoch_99 "entity.n.01") []
    = (Raise IndexError, [])
  ∧ @train perfect_classifier animals 10 10 300 5 20 4
      [["dog.n.01"; "animal.n.01"]] []
    = (Raise IndexError,
       [ {| word := "dog.n.01"; epochs_used := 99;
            best_accuracy := 1%Q; success := true |};
         {| word := "animal.n.01"; epochs_used := 199;
            best_accuracy := 1%Q; success := true |} ]).
Proof.
  split; [|split].
  - eexists. split; reflexivity.
  - vm_compute. reflexivity.
  - vm_compute. reflexivity.
Qed.

(** C5, what the code does when the budget runs out.  With a classifier
    that is never right and a budget of 100 epochs, the last epoch of the
    first target reads [current_root], which no promotion has bound: the
    run ends in an UnboundLocalError, no failure row is written and the
    second target is never started.  When a promotion has bound
    [current_root] before (here [dog.n.01], mastered in the first
    target), the failure row of the target [cat.n.01] names [dog.n.01]. *)
Lemma budget_exhaustion_reads_current_root :
  @train hopeless_classifier animals 10 10 100 5 20 4
    [["dog.n.01"; "animal.n.01"]; ["cat.n.01"; "animal.n.01"]] []
  = (Raise UnboundLocalError, [])
  ∧ @train dog_classifier animals 10 10 100 5 20 4
      [["dog.n.01"; "animal.n.01"]; ["cat.n.01"; "animal.n.01"]] []
    = (Ok (Some (tt : @Model dog_classifier)),
       [ {| word := "dog.n.01"; epochs_used := 99;
            best_accuracy := 1%Q; success := true |};
         {| word := "dog.n.01"; epochs_used := 99;
            best_accuracy := (-1)%Q; success := false |};
         {| word := "dog.n.01"; epochs_used := 99;
            best_accuracy := 0%Q; success := false |} ]).
Proof.
  split; vm_compute; reflexivity.
Qed.

(** * Further properties of the code *)

(** ** Closures: outcomes, loops in the hierarchy, nesting *)

Section ClosureOutcome.
Variable related : Synset → list Synset.

Lemma nests_within_mono (depth depth' : nat) sense :
  (depth ≤ depth')%nat →
  nests_within related depth sense = true →
  nests_within related depth' sense = true.
Proof.
  revert depth' sense. induction depth as [|depth IH]; intros depth' sense Hle Hn;
    [discriminate|].
  destruct depth' as [|depth']; [lia|]. simpl in *.
  rewrite forallb_forall in *. intros y Hy. apply IH; [lia|]. by apply Hn.
Qed.

(** Below the limit the recursion ends in RecursionError, whatever
    else the loop met before. *)
Lemma get_all_from_sense_raises depth sense :
  nests_within related depth sense = false →
  get_all_from_sense related depth sense = Raise RecursionError.
Proof.
  revert sense. induction depth as [|depth IH]; intros sense Hn; [done|].
  simpl in *. generalize (∅ : gset Synset).
  induction (related sense) as [|y l IHl]; intros acc; [discriminate|].
  simpl in *. apply andb_false_iff in Hn as [Hy|Hl].
  - by rewrite (IH y Hy).
  - destruct (nests_within related depth y) eqn:Hy.
    + destruct (get_all_from_sense_total related depth y Hy) as (zs & ->).
      simpl. by apply IHl.
    + by rewrite (IH y Hy).
Qed.

(** A sense from which a loop of links can be reached nests within no
    depth. *)
Lemma loop_never_nests depth sense c :
  rtc (linked related) sense c → tc (linked related) c c →
  nests_within related depth sense = false.
Proof.
  revert sense c. induction depth as [|depth IH]; intros sense c Hreach Hloop;
    [done|].
  simpl. apply not_true_is_false. intros Hall.
  assert (∃ y, y ∈ related sense
               ∧ rtc (linked related) y c) as (y & Hy & Hyc).
  { apply rtc_inv in Hreach as [Heq|(y & Hsy & Hyc)]; [subst c|by eauto].
    inversion Hloop as [? ? Hsy|? y ? Hsy Hys]; subst.
    - exists sense. split; [done|apply rtc_refl].
    - exists y. split; [done|by apply tc_rtc]. }
  pose proof (forallb_elem _ _ _ Hall Hy) as Hny.
  by rewrite (IH y c Hyc Hloop) in Hny.
Qed.

End ClosureOutcome.

(** X1: [get_all_hyponyms_from_sense] either returns exactly the senses
    reachable from [sense] by one or more hyponym links, which happens
    when the recursion nests within the limit, or it raises
    RecursionError; and likewise [get_all_hypernyms_from_sense] over
    hypernym links. *)
Theorem closure_outcomes (wn : WordNet) (limit : nat) (sense : Synset) :
  ((nests_within (hyponyms wn) limit sense = true
    ∧ ∃ R, get_all_hyponyms_from_sense wn limit sense = Ok R
           ∧ ∀ x, x ∈ R ↔ tc (hyponym_of wn) sense x)
   ∨ (nests_within (hyponyms wn) limit sense = false
      ∧ get_all_hyponyms_from_sense wn limit sense = Raise RecursionError))
  ∧ ((nests_within (hypernyms wn) limit sense = true
      ∧ ∃ R, get_all_hypernyms_from_sense wn limit sense = Ok R
             ∧ ∀ x, x ∈ R ↔ tc (hypernym_of wn) sense x)
     ∨ (nests_within (hypernyms wn) limit sense = false
        ∧ get_all_hypernyms_from_sense wn limit sense = Raise RecursionError)).
Proof.
  unfold get_all_hyponyms_from_sense, get_all_hypernyms_from_sense. split.
  - destruct (nests_within (hyponyms wn) limit sense) eqn:Hn.
    + left. split; [done|].
      destruct (get_all_from_sense_total _ _ _ Hn) as (R & HR).
      exists R. split; [done|]. by apply (get_all_from_sense_reach _ _ _ _ HR).
    + right. split; [done|]. by apply get_all_from_sense_raises.
  - destruct (nests_within (hypernyms wn) limit sense) eqn:Hn.
    + left. split; [done|].
      destruct (get_all_from_sense_total _ _ _ Hn) as (R & HR).
      exists R. split; [done|]. by apply (get_all_from_sense_reach _ _ _ _ HR).
    + right. split; [done|]. by apply get_all_from_sense_raises.
Qed.

(** X2: when a loop of hyponym links can be reached from [sense], the
    hyponym closure of [sense] raises RecursionError whatever the
    recursion limit is, and so do the lemma set and the specificity score
    of [sense] on a fresh [Specificity] object. *)
Theorem closure_of_looping_hierarchy_raises
    (wn : WordNet) (limit : nat) (sense c : Synset) :
  rtc (hyponym_of wn) sense c →
  tc (hyponym_of wn) c c →
  get_all_hyponyms_from_sense wn limit sense = Raise RecursionError
  ∧ get_all_lemmas_from_sense wn limit sense = Raise RecursionError
  ∧ Specificity.evaluate wn limit Specificity.init sense = Raise RecursionError.
Proof.
  intros Hreach Hloop.
  assert (get_all_hyponyms_from_sense wn limit sense = Raise RecursionError)
    as Hraise.
  { apply get_all_from_sense_raises. by eapply loop_never_nests. }
  assert (get_all_lemmas_from_sense wn limit sense = Raise RecursionError)
    as Hlemmas.
  { unfold get_all_lemmas_from_sense. by rewrite Hraise. }
  split; [done|]. split; [done|].
  unfold Specificity.evaluate, Specificity.init, name.
  rewrite lookup_empty. by rewrite Hlemmas.
Qed.

Lemma closure_of_looping_hierarchy_raises_witness :
  get_all_hyponyms_from_sense loop_net 1000 "a.n.01" = Raise RecursionError
  ∧ Specificity.evaluate loop_net 1000 Specificity.init "a.n.01"
    = Raise RecursionError.
Proof.
  destruct (closure_of_looping_hierarchy_raises loop_net 1000 "a.n.01" "a.n.01")
    as (H1 & _ & H3).
  - apply rtc_refl.
  - apply (tc_l _ _ "b.n.01"); [|apply tc_once];
      unfold hyponym_of, linked; by_compute.
  - split; [exact H1|exact H3].
Defined.

(** X3: a hyponym closure that is returned does not contain the sense it
    was computed for, contains every direct child
    ([get_just_children_from_sense]), and contains the closure of each of
    its members. *)
Theorem closure_is_transitive
    (wn : WordNet) (limit limit' : nat) (sense y : Synset)
    (closure closure_y : gset Synset) :
  get_all_hyponyms_from_sense wn limit sense = Ok closure →
  y ∈ closure →
  get_all_hyponyms_from_sense wn limit' y = Ok closure_y →
  (sense ∉ closure)
  ∧ get_just_children_from_sense wn sense ⊆ closure
  ∧ closure_y ⊆ closure.
Proof.
  intros Hs Hy Hcy.
  pose proof (get_all_from_sense_reach _ _ _ _ Hs) as Hreach.
  pose proof (get_all_from_sense_reach _ _ _ _ Hcy) as Hreach_y.
  split; [|split].
  - intros Hself. apply Hreach in Hself.
    pose proof (loop_never_nests (hyponyms wn) limit sense sense
                  (rtc_refl _ _) Hself) as Hn.
    apply get_all_from_sense_raises in Hn.
    unfold get_all_hyponyms_from_sense in Hs. congruence.
  - intros x Hx. apply Hreach, tc_once. unfold linked.
    unfold get_just_children_from_sense in Hx. revert Hx.
    generalize (hyponyms wn sense). intros l.
    assert (∀ acc : gset Synset,
              x ∈ foldl (fun result y => result ∪ {[ y ]}) acc l →
              x ∈ acc ∨ x ∈ l) as Hfold.
    { induction l as [|z l IH]; intros acc; simpl; [auto|].
      intros [Hin|Hin]%IH.
      - apply elem_of_union in Hin as [? | Hz]; [by left|].
        apply elem_of_singleton in Hz as ->.
        right. apply elem_of_cons. by left.
      - right. apply elem_of_cons. by right. }
    intros [Hin|Hin]%Hfold; [by apply not_elem_of_empty in Hin|done].
  - intros x Hx. apply Hreach. eapply tc_trans; [by apply Hreach|].
    by apply Hreach_y.
Qed.

Lemma closure_is_transitive_witness :
  ("animal.n.01" ∉ (list_to_set ["dog.n.01"; "cat.n.01"; "pet.n.01";
                                 "puppy.n.01"] : gset Synset))
  ∧ ({[ "puppy.n.01" ]} : gset Synset)
    ⊆ list_to_set ["dog.n.01"; "cat.n.01"; "pet.n.01"; "puppy.n.01"].
Proof.
  destruct (closure_is_transitive animals 10 5 "animal.n.01" "dog.n.01"
              (list_to_set ["dog.n.01"; "cat.n.01"; "pet.n.01"; "puppy.n.01"])
              {[ "puppy.n.01" ]}) as (H1 & _ & H3).
  - vm_compute. reflexivity.
  - by_compute.
  - vm_compute. reflexivity.
  - split; [exact H1|exact H3].
Defined.

(** ** Flatness *)

Lemma ratio_one (a b : nat) :
  (0 < a)%nat →
  (inject_Z (Z.of_nat a) / inject_Z (Z.of_nat (b + a)) == 1)%Q ↔ b = 0%nat.
Proof.
  intros Ha.
  assert (¬ inject_Z (Z.of_nat (b + a)) == 0)%Q as Hden.
  { unfold Qeq, inject_Z. simpl. lia. }
  split.
  - intros Hq.
    assert (inject_Z (Z.of_nat a) == inject_Z (Z.of_nat (b + a)))%Q as Heq.
    { rewrite <- (Qmult_1_l (inject_Z (Z.of_nat (b + a)))), <- Hq.
      by rewrite Qmult_comm, Qmult_div_r. }
    unfold Qeq, inject_Z in Heq. simpl in Heq. lia.
  - intros ->. simpl. by apply Qmult_inv_r.
Qed.

(** X4: the flatness of a sense is 1 exactly when none of its direct
    hyponyms has a hyponym of its own (in particular when it has no
    hyponym at all). *)
Theorem flatness_is_one_iff_children_are_leaves
    (wn : WordNet) (limit : nat) (sense : Synset) (q : Q) :
  forallb (nests_within (hyponyms wn) limit) (hyponyms wn sense) = true →
  get_flatness_from_sense wn limit sense = Ok q →
  (q == 1)%Q ↔ ∀ y, y ∈ hyponyms wn sense → hyponyms wn y = [].
Proof.
  intros Hn Hq.
  destruct (flatness_loop wn limit sense Hn)
    as (children & non_children & Hrun & Hc & Hnc).
  assert (size non_children = 0%nat
          ↔ ∀ y, y ∈ hyponyms wn sense → hyponyms wn y = []) as Hleaves.
  { split.
    - intros Hsize%size_empty_inv y Hy.
      destruct (hyponyms wn y) as [|z l] eqn:Ey; [done|].
      exfalso. apply (not_elem_of_empty (C:=gset Synset) z), Hsize, Hnc.
      exists y. split; [done|].
      apply tc_once. unfold hyponym_of, linked. rewrite Ey.
      apply elem_of_cons. by left.
    - intros Hall. apply size_empty_iff, elem_of_equiv_empty. intros z Hz.
      apply Hnc in Hz as (y & Hy & Htc). specialize (Hall y Hy).
      apply tc_edge_unfold in Htc as (y' & Hy' & _).
      rewrite Hall in Hy'. by apply elem_of_nil in Hy'. }
  unfold get_flatness_from_sense in Hq. rewrite Hrun in Hq. simpl in Hq.
  destruct (decide (size non_children + size children ≠ 0)%nat) as [Hsum|Hsum].
  - injection Hq as <-. rewrite <- Hleaves.
    destruct (size children) as [|k] eqn:Hk.
    + assert (size non_children ≠ 0)%nat as Hnz by lia.
      exfalso. apply Hnz, Hleaves. intros y Hy. apply Hc in Hy.
      apply size_empty_inv in Hk. by apply Hk in Hy.
    + apply ratio_one. lia.
  - injection Hq as <-. split; [|done]. intros _. apply Hleaves. lia.
Qed.

Lemma flatness_is_one_iff_children_are_leaves_witness :
  (inject_Z 3 / inject_Z 4 == 1)%Q
  ↔ ∀ y, y ∈ hyponyms animals "animal.n.01" → hyponyms animals y = [].
Proof.
  apply (flatness_is_one_iff_children_are_leaves animals 10 "animal.n.01");
    vm_compute; reflexivity.
Defined.

(** ** Specificity along the hierarchy *)

Lemma token_under_mono wn s y t :
  tc (hyponym_of wn) s y → token_under wn y t → token_under wn s t.
Proof.
  intros Hsy (z & l & Hz & Hl & Ht). exists z, l. split; [|done].
  right. destruct Hz as [->|Hz]; [done|]. by eapply tc_trans.
Qed.

(** X5: the score a [Specificity] object returns for a sense of the
    hyponym closure of [s] is at most the score it returns for [s]:
    specificity never decreases from a concept to a more general one. *)
Theorem specificity_never_decreases_upward
    (wn : WordNet) (limit : nat) (cache cache1 cache' cache1' : gmap string nat)
    (s y : Synset) (spec_s spec_y : nat) :
  tc (hyponym_of wn) s y →
  cache_state wn limit cache →
  cache_state wn limit cache' →
  Specificity.evaluate wn limit cache s = Ok (spec_s, cache1) →
  Specificity.evaluate wn limit cache' y = Ok (spec_y, cache1') →
  (spec_y ≤ spec_s)%nat.
Proof.
  intros Hsy Hc Hc' Hs Hy.
  assert (∀ c x v c1, cache_state wn limit c →
            Specificity.evaluate wn limit c x = Ok (v, c1) →
            ∃ all, get_all_lemmas_from_sense wn limit x = Ok all ∧ v = size all)
    as Hscore.
  { intros c x v c1 Hst Hev.
    apply evaluate_Ok in Hev as [[Hhit _]|(_ & all & Ha & -> & _)]; [|eauto].
    by eapply cache_state_sound. }
  destruct (Hscore _ _ _ _ Hc Hs) as (A & HA & ->).
  destruct (Hscore _ _ _ _ Hc' Hy) as (B & HB & ->).
  apply subseteq_size. intros t Ht.
  apply (get_all_lemmas_from_sense_tokens _ _ _ _ HA).
  apply (token_under_mono wn s y); [done|].
  by apply (get_all_lemmas_from_sense_tokens _ _ _ _ HB).
Qed.

Lemma specificity_never_decreases_upward_witness : (4 ≤ 9)%nat.
Proof.
  refine (specificity_never_decreases_upward animals 10
            Specificity.init (<[ "animal.n.01" := 9%nat ]> ∅)
            Specificity.init (<[ "dog.n.01" := 4%nat ]> ∅)
            "animal.n.01" "dog.n.01" 9 4 _ _ _ _ _).
  - apply tc_once. unfold hyponym_of, linked. by_compute.
  - apply cache_init.
  - apply cache_init.
  - vm_compute. reflexivity.
  - vm_compute. reflexivity.
Defined.

(** ** The hypernym chain: order, loops, unknown names *)

Lemma ascent_order wn s l i j a b :
  ascent wn s l → (i < j)%nat → l !! i = Some a → l !! j = Some b →
  tc (flip (parent_of wn)) a b.
Proof.
  intros Hasc. revert i j. induction Hasc as [s Htop|s p l Hp Hasc IH];
    intros i j Hij Ha Hb.
  - destruct j as [|j]; [lia|]. by destruct j.
  - destruct j as [|j]; [lia|]. destruct i as [|i].
    + injection Ha as Ha. subst a. apply (ascent_above wn s (s :: l)).
      * by apply (ascent_step wn s p l).
      * simpl. by eapply list_elem_of_lookup_2.
    + apply (IH i j); [lia|done|done].
Qed.

Lemma parent_is_hypernym wn a b :
  mirrored wn → tc (flip (parent_of wn)) a b → tc (hyponym_of wn) b a.
Proof.
  intros Hm.
  assert (∀ x y, flip (parent_of wn) x y → hyponym_of wn y x) as Hstep.
  { intros x y Hxy. unfold flip, parent_of, canonical_parent in Hxy.
    unfold hyponym_of, linked. apply Hm.
    destruct (hypernyms wn x) as [|h hs]; [discriminate|].
    injection Hxy as ->. apply elem_of_cons. by left. }
  induction 1 as [x y Hxy|x y z Hxy _ IH].
  - by apply tc_once, Hstep.
  - eapply tc_r; [exact IH|]. by apply Hstep.
Qed.

Lemma specificity_of_mono wn limit s y :
  nests_within (hyponyms wn) limit s = true →
  nests_within (hyponyms wn) limit y = true →
  tc (hyponym_of wn) s y →
  (specificity_of wn limit y ≤ specificity_of wn limit s)%nat.
Proof.
  intros Hs Hy Hsy.
  destruct (get_all_lemmas_from_sense_total _ _ _ Hs) as (A & HA).
  destruct (get_all_lemmas_from_sense_total _ _ _ Hy) as (B & HB).
  rewrite (specificity_of_Ok _ _ _ _ HA), (specificity_of_Ok _ _ _ _ HB).
  apply subseteq_size. intros t Ht.
  apply (get_all_lemmas_from_sense_tokens _ _ _ _ HA).
  apply (token_under_mono wn s y); [done|].
  by apply (get_all_lemmas_from_sense_tokens _ _ _ _ HB).
Qed.

(** X6: in a hierarchy whose hypernym and hyponym pointers mirror each
    other, [get_final_root_synset] yields a concept if and only if the
    initial concept itself has a specificity below 700; and then every
    concept of the chain from the initial one up to the one returned has
    a specificity below 700. *)
Theorem get_final_root_synset_needs_specific_start
    (wn : WordNet) (limit : nat) (initial : string) (synset : Synset) :
  well_founded (parent_of wn) →
  mirrored wn →
  wn_synset wn initial = Some synset →
  (∀ w, nests_within (hyponyms wn) limit w = true) →
  ∃ (chain : list Synset) (final : option string),
    (∀ fuel, (length chain ≤ fuel)%nat →
       get_final_root_synset wn limit fuel initial = Ok final)
    ∧ (is_Some final ↔ (specificity_of wn limit synset < 700)%nat)
    ∧ (∀ r, final = Some r →
            ∃ i, chain !! i = Some r
                 ∧ ∀ j w, (j ≤ i)%nat → chain !! j = Some w →
                          (specificity_of wn limit w < 700)%nat).
Proof.
  intros Hwf Hm Hlookup Hn.
  destruct (hypernym_chain_returns wn initial synset Hwf Hlookup)
    as (chain & Hasc & Hchain).
  exists chain, (first_below_downward wn limit chain).
  assert (∀ i j a b, (i ≤ j)%nat → chain !! i = Some a → chain !! j = Some b →
            (specificity_of wn limit a ≤ specificity_of wn limit b)%nat)
    as Hmono.
  { intros i j a b Hij Ha Hb.
    destruct (decide (i = j)) as [->|Hne]; [assert (a = b) as -> by congruence; lia|].
    apply specificity_of_mono; [done|done|].
    apply parent_is_hypernym; [done|].
    apply (ascent_order wn synset chain i j); [done|lia|done|done]. }
  pose proof (ascent_head _ _ _ Hasc) as Hhead.
  assert (chain !! 0%nat = Some synset) as H0.
  { destruct chain; [discriminate|]. by injection Hhead as ->. }
  split; [|split].
  - intros fuel Hfuel. unfold get_final_root_synset. rewrite Hchain by done.
    simpl. apply first_below_700_scan; [apply cache_init|auto].
  - unfold first_below_downward, scan_below. split.
    + intros [r Hr]. apply find_rev_last in Hr as (i & Hi & Hf & _).
      apply Nat.ltb_lt in Hf.
      pose proof (Hmono 0%nat i synset r (Nat.le_0_l i) H0 Hi) as Hle. lia.
    + intros Hlt.
      destruct (List.find _ (rev chain)) as [r|] eqn:Hfind; [by eexists|].
      exfalso. apply (proj1 (find_all_false _ _)) with (x := synset) in Hfind.
      * apply Nat.ltb_ge in Hfind. lia.
      * apply elem_of_rev. by eapply list_elem_of_lookup_2.
  - intros r Hr. unfold first_below_downward, scan_below in Hr.
    apply find_rev_last in Hr as (i & Hi & Hf & _). apply Nat.ltb_lt in Hf.
    exists i. split; [done|]. intros j w Hj Hw.
    pose proof (Hmono j i w r Hj Hw Hi). lia.
Qed.

Lemma get_final_root_synset_needs_specific_start_witness :
  ∃ (chain : list Synset) (final : option string),
    get_final_root_synset animals 10 (length chain) "puppy.n.01" = Ok final
    ∧ (is_Some final ↔ (specificity_of animals 10 "puppy.n.01" < 700)%nat).
Proof.
  destruct (get_final_root_synset_needs_specific_start animals 10
              "puppy.n.01" "puppy.n.01") as (chain & final & H1 & H2 & _).
  - exact animals_wf.
  - apply mirrored_table_sound. vm_compute. reflexivity.
  - vm_compute. reflexivity.
  - apply (nests_within_table animals_table 9). vm_compute. reflexivity.
  - exists chain, final. split; [apply H1; lia|exact H2].
Defined.

Lemma hypernym_chain_loop_on_a_loop wn fuel s k result :
  rtc (flip (parent_of wn)) s k → tc (flip (parent_of wn)) k k →
  hypernym_chain_loop wn fuel s result = StillRunning.
Proof.
  revert s result. induction fuel as [|fuel IH]; intros s result Hreach Hloop;
    [done|].
  assert (∃ p, parent_of wn p s ∧ rtc (flip (parent_of wn)) p k)
    as (p & Hp & Hpk).
  { apply rtc_inv in Hreach as [Heq|(y & Hsy & Hyk)]; [subst k|by eauto].
    inversion Hloop as [? ? Hsy|? y ? Hsy Hys]; subst.
    - exists s. split; [done|apply rtc_refl].
    - exists y. split; [done|by apply tc_rtc]. }
  simpl. unfold parent_of, canonical_parent in Hp.
  destruct (hypernyms wn s) as [|p' rest]; [discriminate|].
  injection Hp as ->. by apply (IH p).
Qed.

(** X7: [hypernym_chain] and [hypernym_chain_with_specs] raise
    WordNetError for a name that is not the name of a synset; and when
    following first hypernyms from the named synset leads into a loop,
    [hypernym_chain] never returns, however long it runs. *)
Theorem hypernym_chain_unknown_name_and_loops (wn : WordNet) (c : string) :
  (wn_synset wn c = None →
   ∀ limit fuel,
     hypernym_chain wn fuel c = Raise WordNetError
     ∧ hypernym_chain_with_specs wn limit fuel c = Raise WordNetError)
  ∧ (∀ synset k,
       wn_synset wn c = Some synset →
       rtc (flip (parent_of wn)) synset k →
       tc (flip (parent_of wn)) k k →
       ∀ fuel, hypernym_chain wn fuel c = StillRunning).
Proof.
  split.
  - intros Hnone limit fuel.
    unfold hypernym_chain, hypernym_chain_with_specs, lookup_synset.
    by rewrite Hnone.
  - intros synset k Hc Hreach Hloop fuel.
    unfold hypernym_chain, lookup_synset. rewrite Hc. simpl.
    by eapply hypernym_chain_loop_on_a_loop.
Qed.

Lemma hypernym_chain_unknown_name_and_loops_witness :
  hypernym_chain animals 10 "unicorn.n.01" = Raise WordNetError
  ∧ hypernym_chain loop_net 1000 "a.n.01" = StillRunning.
Proof.
  split.
  - apply (proj1 (hypernym_chain_unknown_name_and_loops animals "unicorn.n.01")
             eq_refl 10 10).
  - apply (proj2 (hypernym_chain_unknown_name_and_loops loop_net "a.n.01")
             "a.n.01" "a.n.01" eq_refl).
    + apply rtc_refl.
    + apply (tc_l _ _ "b.n.01"); [|apply tc_once]; reflexivity.
Defined.

(** The loop of [hypernym_chain_with_specs] scores the path above [s]. *)
Lemma hypernym_chain_with_specs_loop_ascent wn limit s l :
  ascent wn s l →
  (∀ w, nests_within (hyponyms wn) limit w = true) →
  ∀ fuel spec result,
    (length l ≤ fuel)%nat → cache_state wn limit spec →
    hypernym_chain_with_specs_loop wn limit fuel spec s result
    = Ok (result
          ++ ((fun p => Scored p (specificity_of wn limit p)) <$> tail l)).
Proof.
  intros Hasc Hn.
  induction Hasc as [s Htop|s p l Hp Hasc IH]; intros fuel spec result Hfuel Hst.
  - destruct fuel as [|fuel]; [simpl in Hfuel; lia|].
    simpl. rewrite Htop. by rewrite app_nil_r.
  - destruct fuel as [|fuel]; [simpl in Hfuel; lia|].
    simpl. unfold canonical_parent in Hp.
    destruct (hypernyms wn s) as [|p' rest]; [discriminate|].
    injection Hp as ->.
    destruct (evaluate_returns wn limit spec p Hst (Hn p)) as (spec' & Hev & Hst').
    rewrite Hev. simpl. rewrite IH by (simpl in Hfuel; lia || done).
    rewrite <- app_assoc. f_equal.
    pose proof (ascent_head _ _ _ Hasc) as Hh.
    destruct l as [|x l]; [discriminate|]. by injection Hh as ->.
Qed.

(** X8: [hypernym_chain_with_specs] returns the synsets of
    [hypernym_chain] in the same order: the first bare, each later one
    paired with its specificity. *)
Theorem hypernym_chain_with_specs_scores_the_chain
    (wn : WordNet) (limit : nat) (c : string) (synset : Synset) :
  well_founded (parent_of wn) →
  wn_synset wn c = Some synset →
  (∀ w, nests_within (hyponyms wn) limit w = true) →
  ∃ (chain : list Synset) (items : list ChainItem),
    (∀ fuel, (length chain ≤ fuel)%nat →
       hypernym_chain wn fuel c = Ok chain
       ∧ hypernym_chain_with_specs wn limit fuel c = Ok items)
    ∧ item_synset <$> items = chain
    ∧ head items = Some (Bare synset)
    ∧ (∀ i item, items !! S i = Some item →
         ∃ p, item = Scored p (specificity_of wn limit p)).
Proof.
  intros Hwf Hc Hn.
  destruct (hypernym_chain_returns wn c synset Hwf Hc) as (chain & Hasc & Hchain).
  pose proof (ascent_head _ _ _ Hasc) as Hh.
  destruct chain as [|x l]; [discriminate|]. injection Hh as ->.
  exists (synset :: l),
    (Bare synset :: ((fun p => Scored p (specificity_of wn limit p)) <$> l)).
  split; [|split; [|split]].
  - intros fuel Hfuel. split; [by apply Hchain|].
    unfold hypernym_chain_with_specs, lookup_synset. rewrite Hc. simpl.
    by rewrite (hypernym_chain_with_specs_loop_ascent wn limit synset
                  (synset :: l) Hasc Hn fuel _ _ Hfuel (cache_init wn limit)).
  - simpl. f_equal. rewrite <- list_fmap_compose.
    rewrite <- (list_fmap_id l) at 2. by apply list_fmap_ext.
  - done.
  - intros i item Hi. simpl in Hi. apply list_lookup_fmap_Some in Hi.
    destruct Hi as (p & -> & _). by exists p.
Qed.

Lemma hypernym_chain_with_specs_scores_the_chain_witness :
  ∃ (chain : list Synset) (items : list ChainItem),
    hypernym_chain_with_specs animals 10 (length chain) "puppy.n.01" = Ok items
    ∧ item_synset <$> items = chain.
Proof.
  destruct (hypernym_chain_with_specs_scores_the_chain animals 10
              "puppy.n.01" "puppy.n.01") as (chain & items & H1 & H2 & _).
  - exact animals_wf.
  - vm_compute. reflexivity.
  - apply (nests_within_table animals_table 9). vm_compute. reflexivity.
  - exists chain, items. split; [apply H1; lia|exact H2].
Defined.

(** ** The sampler *)

(** What [evaluate] returns on a sound cache is the score of the sense. *)
Lemma evaluate_score wn limit cache sense spec cache' :
  cache_state wn limit cache →
  Specificity.evaluate wn limit cache sense = Ok (spec, cache') →
  spec = specificity_of wn limit sense ∧ cache_state wn limit cache'.
Proof.
  intros Hst Hev. split; [|by eapply cache_evaluate].
  apply evaluate_Ok in Hev as [[Hhit _]|(_ & all & Ha & -> & _)].
  - destruct (cache_state_sound _ _ _ Hst _ _ Hhit) as (all & Ha & ->).
    by rewrite (specificity_of_Ok _ _ _ _ Ha).
  - by rewrite (specificity_of_Ok _ _ _ _ Ha).
Qed.

(** X9: a sampler that [GetRandomSynset(root_synset)] constructs holds
    in [entity_hyps] exactly the hyponym closure of the root, and its
    [specificities] table has exactly these synsets as keys, each with its
    specificity. *)
Theorem sampler_holds_closure_and_scores
    (wn : WordNet) (limit : nat) (root_synset : string)
    (self : GetRandomSynset.t) :
  GetRandomSynset.init wn limit root_synset = Ok self →
  ∃ entity,
    wn_synset wn root_synset = Some entity
    ∧ (∀ h, h ∈ GetRandomSynset.entity_hyps self ↔ tc (hyponym_of wn) entity h)
    ∧ (∀ h, is_Some (GetRandomSynset.specificities self !! h)
            ↔ h ∈ GetRandomSynset.entity_hyps self)
    ∧ (∀ h v, GetRandomSynset.specificities self !! h = Some v →
              v = specificity_of wn limit h).
Proof.
  unfold GetRandomSynset.init, lookup_synset. intros Hinit.
  destruct (wn_synset wn root_synset) as [entity|] eqn:He; [|discriminate].
  simpl in Hinit. apply bind_Ok in Hinit as (hyps & Hhyps & Hinit).
  apply bind_Ok in Hinit as ([specs cache] & Hloop & [= <-]).
  exists entity. split; [done|]. simpl.
  split; [by apply (get_all_from_sense_reach _ _ _ _ Hhyps)|].
  match type of Hloop with
  | for_each ?body _ _ = _ =>
      pose proof (for_each_Ok_invariant body
        (fun seen (st : gmap Synset nat * gmap string nat) =>
           cache_state wn limit st.2
           ∧ (∀ h, is_Some (st.1 !! h) ↔ h ∈ seen)
           ∧ (∀ h v, st.1 !! h = Some v → v = specificity_of wn limit h))
        _ _ _ Hloop) as Hinv
  end.
  destruct Hinv as (_ & Hkeys & Hvals).
  - simpl. split; [apply cache_init|]. split.
    + intros h. rewrite lookup_empty. split; [by intros [? ?]|by intros ?%elem_of_nil].
    + intros h v. by rewrite lookup_empty.
  - intros seen h [sp ca] [sp' ca'] (Hst & Hk & Hv) Hh Hbody. simpl in *.
    apply bind_Ok in Hbody as ([spec c1] & Hev & [= <- <-]).
    destruct (evaluate_score _ _ _ _ _ _ Hst Hev) as [-> Hst'].
    split; [done|]. split.
    + intros x. rewrite elem_of_app, list_elem_of_singleton, <- Hk.
      destruct (decide (h = x)) as [->|Hne].
      * rewrite lookup_insert_eq. split; [by right|by eexists].
      * rewrite lookup_insert_ne by done. split; [by left|].
        intros [?|?]; [done|congruence].
    + intros x v. destruct (decide (h = x)) as [->|Hne].
      * rewrite lookup_insert_eq. by intros [= <-].
      * rewrite lookup_insert_ne by done. apply Hv.
  - simpl in *. split; [|done]. intros h. rewrite Hkeys.
    apply elem_of_elements.
Qed.

Lemma sampler_holds_closure_and_scores_witness :
  "puppy.n.01" ∈ GetRandomSynset.entity_hyps (sampler_at animals 10 "dog.n.01")
  ↔ tc (hyponym_of animals) "dog.n.01" "puppy.n.01".
Proof.
  destruct (sampler_holds_closure_and_scores animals 10 "dog.n.01"
              (sampler_at animals 10 "dog.n.01")) as (entity & He & Hc & _).
  - vm_compute. reflexivity.
  - injection He as <-. exact (Hc "puppy.n.01").
Defined.

Lemma band_candidates_elem self lower upper h :
  h ∈ band_candidates self lower upper
  ↔ ∃ v, GetRandomSynset.specificities self !! h = Some v
         ∧ (lower ≤ v ∧ v ≤ upper)%nat.
Proof.
  unfold band_candidates. rewrite list_elem_of_omap. split.
  - intros ([k v] & Hkv & Hsome). apply elem_of_map_to_list in Hkv.
    destruct (decide (lower ≤ v ∧ v ≤ upper)%nat); [|discriminate].
    injection Hsome as <-. eauto.
  - intros (v & Hv & Hband). exists (h, v).
    split; [by apply elem_of_map_to_list|].
    by destruct (decide (lower ≤ v ∧ v ≤ upper)%nat).
Qed.

(** X10: [random_synset_with_specificity(lower, upper)] returns a key of
    the [specificities] table whose score lies between [lower] and
    [upper], bounds included; it returns [None] exactly when the table
    has no such key. *)
Theorem random_synset_with_specificity_in_band
    (self : GetRandomSynset.t) (rng : nat → nat) (tick lower upper : nat) :
  (∀ r, random_synset_with_specificity self rng tick lower upper = Some r →
        ∃ v, GetRandomSynset.specificities self !! r = Some v
             ∧ (lower ≤ v ∧ v ≤ upper)%nat)
  ∧ (random_synset_with_specificity self rng tick lower upper = None
     ↔ ∀ h v, GetRandomSynset.specificities self !! h = Some v →
              ¬ (lower ≤ v ∧ v ≤ upper)%nat).
Proof.
  unfold random_synset_with_specificity.
  destruct (decide (0 < length (band_candidates self lower upper))%nat)
    as [Hpos|Hzero].
  - split.
    + intros r Hr. apply band_candidates_elem. by eapply list_elem_of_lookup_2.
    + split.
      * intros Hnone. apply lookup_ge_None in Hnone.
        pose proof (Nat.mod_upper_bound (rng tick)
                      (length (band_candidates self lower upper))). lia.
      * intros Hall. exfalso.
        destruct (band_candidates self lower upper) as [|h l] eqn:E;
          [simpl in Hpos; lia|].
        assert (h ∈ band_candidates self lower upper) as Hh
          by (rewrite E; apply elem_of_cons; by left).
        apply band_candidates_elem in Hh as (v & Hv & Hband).
        by apply (Hall h v).
  - split; [discriminate|]. split; [|done]. intros _ h v Hv Hband.
    assert (h ∈ band_candidates self lower upper) as Hh
      by (apply band_candidates_elem; eauto).
    destruct (band_candidates self lower upper); [by apply elem_of_nil in Hh|].
    simpl in Hzero. lia.
Qed.

(** X11: a sampler rooted at a synset without hyponyms has an empty
    closure; [random_non_hyponym] then raises ValueError at its first
    draw instead of looping, and [random_synset_with_specificity] returns
    [None] for every band. *)
Theorem sampler_of_a_leaf
    (wn : WordNet) (limit : nat) (root_synset : string) (entity : Synset) :
  wn_synset wn root_synset = Some entity →
  hyponyms wn entity = [] →
  ∃ self,
    GetRandomSynset.init wn (S limit) root_synset = Ok self
    ∧ GetRandomSynset.entity_hyps self = ∅
    ∧ (∀ rng fuel tick synset,
         GetRandomSynset.random_non_hyponym wn (S limit) self rng (S fuel) tick
                                            synset
         = Raise ValueError)
    ∧ (∀ rng tick lower upper,
         random_synset_with_specificity self rng tick lower upper = None).
Proof.
  intros He Hleaf.
  exists {| GetRandomSynset.entity_hyps := ∅;
            GetRandomSynset.specificities := ∅ |}.
  split; [|split; [done|split]].
  - unfold GetRandomSynset.init, lookup_synset, get_all_hyponyms_from_sense.
    rewrite He. simpl. rewrite Hleaf. simpl. by rewrite elements_empty.
  - intros rng fuel tick synset. simpl.
    unfold GetRandomSynset.call. simpl. by rewrite elements_empty.
  - intros rng tick lower upper.
    unfold random_synset_with_specificity, band_candidates. simpl.
    by rewrite map_to_list_empty.
Qed.

Lemma sampler_of_a_leaf_witness :
  ∃ self,
    GetRandomSynset.init animals 10 "cat.n.01" = Ok self
    ∧ GetRandomSynset.random_non_hyponym animals 10 self (fun t => t) 5 0
                                         "dog.n.01"
      = Raise ValueError.
Proof.
  destruct (sampler_of_a_leaf animals 9 "cat.n.01" "cat.n.01")
    as (self & H1 & _ & H3 & _).
  - vm_compute. reflexivity.
  - vm_compute. reflexivity.
  - exists self. split; [exact H1|apply H3].
Defined.

(** ** [Repitition] *)

Lemma count_occ_append_all (result : list Synset) (l : list Synset) sense :
  count_occ String.string_dec (foldl (fun result z => result ++ [z]) result l)
            sense
  = (count_occ String.string_dec result sense
     + count_occ String.string_dec l sense)%nat.
Proof.
  revert result. induction l as [|z l IH]; intros result; simpl; [lia|].
  rewrite IH, count_occ_app. simpl.
  destruct (String.string_dec z sense); lia.
Qed.

Lemma length_append_matches (result : list Synset) (l : list Synset) y sense :
  length (foldl (fun result z => if decide (z = sense) then result ++ [y]
                                 else result) result l)
  = (length result + count_occ String.string_dec l sense)%nat.
Proof.
  revert result. induction l as [|z l IH]; intros result; simpl; [lia|].
  rewrite IH. destruct (decide (z = sense)) as [->|Hne].
  - rewrite length_app. simpl.
    destruct (String.string_dec sense sense); [lia|done].
  - destruct (String.string_dec z sense); [done|lia].
Qed.

(** The two loops over the children of [entity.n.01] run in step. *)
Lemma big_one_and_parents wn limit entity sense (children : list Synset) :
  ∀ (big0 parents0 big : list Synset),
    for_each
      (fun result y =>
         let result := result ++ [y] in
         bind (get_all_hyponyms_from_sense wn limit y)
              (fun zs => Ok (Repitition.append_all result zs)))
      big0 children = Ok big →
    ∃ parents,
      for_each
        (fun result y =>
           let result := if decide (y = sense) then result ++ [entity]
                         else result in
           bind (get_all_hyponyms_from_sense wn limit y)
                (fun zs => Ok (Repitition.append_matches result y sense zs)))
        parents0 children = Ok parents
      ∧ (length parents + count_occ String.string_dec big0 sense
         = length parents0 + count_occ String.string_dec big sense)%nat.
Proof.
  induction children as [|y children IH]; intros big0 parents0 big Hbig.
  - simpl in Hbig. injection Hbig as <-. exists parents0. by split.
  - simpl in Hbig. apply bind_Ok in Hbig as (big1 & Hstep & Hbig).
    apply bind_Ok in Hstep as (zs & Hzs & [= <-]).
    simpl. rewrite Hzs. simpl.
    destruct (IH _ (Repitition.append_matches
                      (if decide (y = sense) then parents0 ++ [entity]
                       else parents0) y sense zs) _ Hbig)
      as (parents & Hrun & Hcount).
    exists parents. split; [done|].
    unfold Repitition.append_all, Repitition.append_matches in Hcount.
    rewrite count_occ_append_all, length_append_matches, count_occ_app
      in Hcount.
    simpl in Hcount.
    destruct (decide (y = sense)) as [->|Hne].
    + rewrite length_app in Hcount. simpl in Hcount.
      destruct (String.string_dec sense sense); [lia|done].
    + destruct (String.string_dec y sense); [done|lia].
Qed.

(** X12: when [Repitition()] can be constructed, [which_parents(sense)]
    returns a list with as many entries as [get_repitition_from_sense]
    counts occurrences of [sense] in [the_big_one]. *)
Theorem which_parents_matches_repitition
    (wn : WordNet) (limit : nat) (the_big_one : list Synset) (sense : Synset) :
  Repitition.generate_the_big_one wn limit = Ok the_big_one →
  ∃ parents,
    Repitition.which_parents wn limit sense = Ok parents
    ∧ length parents
      = Repitition.get_repitition_from_sense the_big_one sense.
Proof.
  unfold Repitition.generate_the_big_one, Repitition.which_parents,
    Repitition.get_repitition_from_sense.
  intros Hbig. apply bind_Ok in Hbig as (entity & He & Hbig). rewrite He.
  simpl.
  destruct (big_one_and_parents wn limit entity sense _ [] [] _ Hbig)
    as (parents & Hrun & Hcount).
  exists parents. split; [done|]. simpl in Hcount. lia.
Qed.

Lemma which_parents_matches_repitition_witness :
  ∃ (the_big_one parents : list Synset),
    Repitition.generate_the_big_one animals 10 = Ok the_big_one
    ∧ Repitition.which_parents animals 10 "puppy.n.01" = Ok parents
    ∧ length parents
      = Repitition.get_repitition_from_sense the_big_one "puppy.n.01".
Proof.
  destruct (Repitition.generate_the_big_one animals 10) as [big| |] eqn:Hbig;
    [|vm_compute in Hbig; discriminate Hbig
     |vm_compute in Hbig; discriminate Hbig].
  destruct (which_parents_matches_repitition animals 10 big "puppy.n.01" Hbig)
    as (parents & H1 & H2).
  exists big, parents. split; [reflexivity|]. split; [exact H1|exact H2].
Defined.

(** ** [evaluate] of [multitrain.py] *)

Lemma count_correct_from (ps rs pre_p pre_r : list nat) (correct : nat) :
  length pre_p = length pre_r →
  (length ps ≤ length rs)%nat →
  for_each
    (fun correct i =>
       match (pre_r ++ rs) !! i, (pre_p ++ ps) !! i with
       | Some r, Some p => if decide (r = p) then Ok (S correct) else Ok correct
       | _, _ => Raise IndexError
       end)
    correct (seq (length pre_p) (length ps))
  = Ok (correct + Multitrain.agreements ps rs)%nat.
Proof.
  revert rs pre_p pre_r correct.
  induction ps as [|p ps IH]; intros rs pre_p pre_r correct Hpre Hlen.
  - simpl. f_equal. lia.
  - destruct rs as [|r rs]; [simpl in Hlen; lia|]. simpl.
    rewrite (list_lookup_middle pre_p ps p (length pre_p)) by done.
    rewrite (list_lookup_middle pre_r rs r (length pre_p)) by done.
    specialize (IH rs (pre_p ++ [p]) (pre_r ++ [r])).
    rewrite !length_app, <- !app_assoc in IH. simpl in IH.
    rewrite Nat.add_1_r in IH.
    destruct (decide (r = p)); simpl; rewrite IH by (simpl in Hlen; lia);
      f_equal; lia.
Qed.

Lemma count_correct_Ok predictions response correct :
  (length predictions ≤ length response)%nat →
  Multitrain.count_correct predictions response correct
  = Ok (correct + Multitrain.agreements predictions response)%nat.
Proof.
  intros Hlen. unfold Multitrain.count_correct.
  by apply (count_correct_from predictions response [] []).
Qed.

Lemma agreements_le predictions response :
  (Multitrain.agreements predictions response ≤ length predictions)%nat.
Proof.
  revert response. induction predictions as [|p ps IH]; intros [|r rs]; simpl;
    try lia.
  specialize (IH rs). destruct (decide (r = p)); lia.
Qed.

Lemma tally_Ok {Data : Type} (model : Data → list nat)
    (loader : list (Data * list nat)) :
  Forall (fun '(data, response) =>
            (length (model data) ≤ length response)%nat) loader →
  Multitrain.tally model loader
  = Ok (Multitrain.total_agreements model loader,
        Multitrain.total_predictions model loader).
Proof.
  intros Hall. unfold Multitrain.tally.
  assert (∀ c t,
    for_each
      (fun '(correct, total) '(data, response) =>
         let predictions := model data in
         let total := (total + length predictions)%nat in
         bind (Multitrain.count_correct predictions response correct)
              (fun correct => Ok (correct, total)))
      (c, t) loader
    = Ok ((c + Multitrain.total_agreements model loader)%nat,
          (t + Multitrain.total_predictions model loader)%nat)) as Hgen.
  { induction Hall as [|[data response] loader Hlen _ IH]; intros c t.
    - simpl. by rewrite !Nat.add_0_r.
    - simpl. rewrite count_correct_Ok by done. simpl. rewrite IH.
      f_equal. f_equal; lia. }
  apply (Hgen 0%nat 0%nat).
Qed.

Lemma fraction_bounds (c t : nat) :
  (c ≤ t)%nat → (0 < t)%nat →
  (0 <= inject_Z (Z.of_nat c) / inject_Z (Z.of_nat t))%Q
  ∧ (inject_Z (Z.of_nat c) / inject_Z (Z.of_nat t) <= 1)%Q
  ∧ ((inject_Z (Z.of_nat c) / inject_Z (Z.of_nat t) == 1)%Q ↔ c = t).
Proof.
  intros Hle Ht.
  assert (0 < inject_Z (Z.of_nat t))%Q as Hden.
  { unfold Qlt, inject_Z. simpl. lia. }
  assert (¬ inject_Z (Z.of_nat t) == 0)%Q as Hnz.
  { unfold Qeq, inject_Z. simpl. lia. }
  split; [|split].
  - apply Qle_shift_div_l; [exact Hden|].
    rewrite Qmult_0_l. unfold Qle, inject_Z. simpl. lia.
  - apply Qle_shift_div_r; [exact Hden|].
    rewrite Qmult_1_l. unfold Qle, inject_Z. simpl. lia.
  - split.
    + intros Hq.
      assert (inject_Z (Z.of_nat c) == inject_Z (Z.of_nat t))%Q as Heq.
      { rewrite <- (Qmult_1_l (inject_Z (Z.of_nat t))), <- Hq.
        by rewrite Qmult_comm, Qmult_div_r. }
      unfold Qeq, inject_Z in Heq. simpl in Heq. lia.
    + intros ->. by apply Qmult_inv_r.
Qed.

(** X13: over a loader whose batches each carry a response for every
    prediction, [evaluate] divides by zero exactly when the loader holds
    no prediction at all; otherwise it returns the number of predictions
    that equal their response divided by the number of predictions, a
    value between 0 and 1 that is 1 exactly when every prediction is
    right. *)
Theorem evaluate_is_the_fraction_correct {Data : Type}
    (model : Data → list nat) (loader : list (Data * list nat)) :
  Forall (fun '(data, response) =>
            (length (model data) ≤ length response)%nat) loader →
  (Multitrain.total_predictions model loader = 0%nat →
   Multitrain.evaluate model loader = Ok Multitrain.ZeroDivisionError)
  ∧ (Multitrain.total_predictions model loader ≠ 0%nat →
     ∃ q, Multitrain.evaluate model loader = Ok (Multitrain.Quotient q)
          ∧ q = (inject_Z (Z.of_nat (Multitrain.total_agreements model loader))
                 / inject_Z (Z.of_nat (Multitrain.total_predictions model loader)))%Q
          ∧ (0 <= q)%Q ∧ (q <= 1)%Q
          ∧ ((q == 1)%Q
             ↔ Multitrain.total_agreements model loader
               = Multitrain.total_predictions model loader)).
Proof.
  intros Hall. unfold Multitrain.evaluate. rewrite (tally_Ok model loader Hall).
  simpl. split.
  - intros Hzero. by destruct (decide _).
  - intros Hpos. destruct (decide _) as [?|_]; [done|].
    eexists. split; [reflexivity|]. split; [reflexivity|].
    apply fraction_bounds; [|lia].
    unfold Multitrain.total_agreements, Multitrain.total_predictions.
    clear Hpos. induction Hall as [|[data response] l _ _ IH]; simpl; [lia|].
    pose proof (agreements_le (model data) response). lia.
Qed.

Lemma evaluate_is_the_fraction_correct_witness :
  Multitrain.evaluate (fun _ : unit => []) [(tt, [])]
  = Ok Multitrain.ZeroDivisionError
  ∧ ∃ q, Multitrain.evaluate (fun data : list nat => data)
           [([0; 1; 2], [0; 1; 4]); ([3], [3])]%nat
         = Ok (Multitrain.Quotient q)
         ∧ (q <= 1)%Q.
Proof.
  split.
  - apply (proj1 (evaluate_is_the_fraction_correct (fun _ : unit => [])
                    [(tt, [])] ltac:(repeat constructor))).
    reflexivity.
  - destruct (proj2 (evaluate_is_the_fraction_correct
                       (fun data : list nat => data)
                       [([0; 1; 2], [0; 1; 4]); ([3], [3])]%nat
                       ltac:(repeat constructor)))
      as (q & Hq & _ & _ & Hle & _).
    + discriminate.
    + exists q. split; [exact Hq|exact Hle].
Defined.

(** ** [DirectedGraph] *)

Lemma dict_snoc {V : Type} (pairs : list (string * V)) k v :
  Ozone.dict (pairs ++ [(k, v)]) = <[ k := v ]> (Ozone.dict pairs).
Proof. unfold Ozone.dict. by rewrite foldl_app. Qed.

(** [dict(pairs)] maps a key to the value of its last pair. *)
Lemma dict_lookup {V : Type} (pairs : list (string * V)) k v :
  Ozone.dict pairs !! k = Some v
  ↔ ∃ i, pairs !! i = Some (k, v)
         ∧ ∀ j v', (i < j)%nat → pairs !! j ≠ Some (k, v').
Proof.
  revert v. induction pairs as [|[k' v'] pairs IH] using rev_ind; intros v.
  - unfold Ozone.dict. simpl. rewrite lookup_empty. split; [done|].
    intros (i & Hi & _). by rewrite lookup_nil in Hi.
  - rewrite dict_snoc. destruct (decide (k' = k)) as [->|Hne].
    + rewrite lookup_insert_eq. split.
      * intros [= <-]. exists (length pairs). split.
        -- by rewrite list_lookup_middle.
        -- intros j v'' Hj Hlook. apply lookup_lt_Some in Hlook.
           rewrite length_app in Hlook. simpl in Hlook. lia.
      * intros (i & Hi & Hlast).
        destruct (decide (i = length pairs)) as [->|Hi'].
        -- rewrite list_lookup_middle in Hi by done. congruence.
        -- exfalso. apply (Hlast (length pairs) v').
           ++ apply lookup_lt_Some in Hi. rewrite length_app in Hi.
              simpl in Hi. lia.
           ++ by rewrite list_lookup_middle.
    + rewrite lookup_insert_ne by done. rewrite IH. split.
      * intros (i & Hi & Hlast). exists i. split.
        -- by apply lookup_app_l_Some.
        -- intros j v'' Hj Hlook.
           apply lookup_app_Some in Hlook as [Hlook|[_ Hlook]].
           ++ by apply (Hlast j v'').
           ++ apply list_lookup_singleton_Some in Hlook as [_ Heq].
              congruence.
      * intros (i & Hi & Hlast).
        apply lookup_app_Some in Hi as [Hi|[_ Hi]].
        -- exists i. split; [done|]. intros j v'' Hj Hlook.
           apply (Hlast j v''); [done|]. by apply lookup_app_l_Some.
        -- apply list_lookup_singleton_Some in Hi as [_ Heq]. congruence.
Qed.

(** X14: the vocabulary of a [DirectedGraph] maps a name to the index
    of the last vertex of the list that bears it (to its only index when
    the names are distinct), and [lookup_vertex_by_name] returns the
    vertex for a name of the list and raises KeyError for any other
    name. *)
Theorem graph_vocab_and_lookup
    (vertices : list string) (edges : list (string * string)) (n : string) :
  (∀ k, Ozone.get_vocab (Ozone.init vertices edges) !! n = Some k
        ↔ vertices !! k = Some n
          ∧ ∀ j, (k < j)%nat → vertices !! j ≠ Some n)
  ∧ (n ∈ vertices →
     Ozone.lookup_vertex_by_name (Ozone.init vertices edges) n = Ok n)
  ∧ (n ∉ vertices →
     Ozone.lookup_vertex_by_name (Ozone.init vertices edges) n = Raise KeyError
     ∧ Ozone.get_vocab (Ozone.init vertices edges) !! n = None).
Proof.
  assert (∀ k, Ozone.get_vocab (Ozone.init vertices edges) !! n = Some k
             ↔ vertices !! k = Some n
               ∧ ∀ j, (k < j)%nat → vertices !! j ≠ Some n) as Hvocab.
  { intros k. unfold Ozone.get_vocab, Ozone.init. simpl. rewrite dict_lookup.
    split.
    - intros (i & Hi & Hlast). rewrite list_lookup_imap in Hi.
      destruct (vertices !! i) as [x|] eqn:Ex; [|discriminate].
      simpl in Hi. injection Hi as Hx Hv. subst x k. split; [done|].
      intros j Hj Hlook. apply (Hlast j j Hj).
      rewrite list_lookup_imap, Hlook. done.
    - intros [Hk Hlast]. exists k. split.
      + rewrite list_lookup_imap, Hk. done.
      + intros j v' Hj Hlook. rewrite list_lookup_imap in Hlook.
        destruct (vertices !! j) as [x|] eqn:Ex; [|discriminate].
        simpl in Hlook. injection Hlook as Hx Hv. subst x v'.
        by apply (Hlast j). }
  assert (∀ v, Ozone.name_to_vertex (Ozone.init vertices edges) !! n = Some v
             → v = n ∧ n ∈ vertices) as Hname.
  { intros v. unfold Ozone.init. simpl. rewrite dict_lookup.
    intros (i & Hi & _). rewrite list_lookup_fmap in Hi.
    destruct (vertices !! i) as [x|] eqn:Ex; [|discriminate].
    simpl in Hi. injection Hi as Hx Hv. subst x v. split; [done|].
    by eapply list_elem_of_lookup_2. }
  split; [done|]. split.
  - intros Hin. unfold Ozone.lookup_vertex_by_name.
    destruct (Ozone.name_to_vertex _ !! n) as [v|] eqn:Ev.
    + by destruct (Hname v eq_refl) as [-> _].
    + exfalso. clear Hvocab Hname. unfold Ozone.init in Ev. simpl in Ev.
      induction vertices as [|x vertices IH] using rev_ind;
        [by apply elem_of_nil in Hin|].
      rewrite fmap_app in Ev. simpl in Ev. rewrite dict_snoc in Ev.
      destruct (decide (x = n)) as [->|Hne].
      * by rewrite lookup_insert_eq in Ev.
      * rewrite lookup_insert_ne in Ev by done. apply IH; try done.
        apply elem_of_app in Hin as [?|Hin]; [done|].
        apply list_elem_of_singleton in Hin. congruence.
  - intros Hout. split.
    + unfold Ozone.lookup_vertex_by_name.
      destruct (Ozone.name_to_vertex _ !! n) as [v|] eqn:Ev; [|done].
      by destruct (Hname v eq_refl) as [_ ?].
    + destruct (Ozone.get_vocab _ !! n) as [k|] eqn:Ek; [|done].
      destruct (proj1 (Hvocab k) eq_refl) as [Hk _]. exfalso. apply Hout.
      by eapply list_elem_of_lookup_2.
Qed.

Lemma graph_vocab_and_lookup_witness :
  Ozone.get_vocab (Ozone.init ["animal"; "bird"; "animal"] []) !! "animal"
  = Some 2%nat
  ∧ Ozone.lookup_vertex_by_name (Ozone.init ["animal"; "bird"; "animal"] [])
                                "fish"
    = Raise KeyError.
Proof.
  pose proof (graph_vocab_and_lookup ["animal"; "bird"; "animal"] [])
    as H.
  split.
  - apply (proj1 (H "animal")). split; [reflexivity|].
    intros j Hj Hlook. apply lookup_lt_Some in Hlook. simpl in Hlook. lia.
  - apply (proj2 (proj2 (H "fish"))). by_compute.
Defined.

(** ** [normalize_lemma] again *)

Lemma normalize_lemma_map lemma :
  normalize_lemma lemma = Str.map_chars normalize_char lemma.
Proof.
  unfold normalize_lemma.
  rewrite !StrFacts.join_split, StrFacts.lower_map, !StrFacts.map_chars_compose.
  apply StrFacts.map_chars_ext. intros c. unfold normalize_char.
  destruct (Ascii.eqb c "_") eqn:E1; reflexivity.
Qed.

Lemma normalize_char_facts (c : ascii) :
  normalize_char (normalize_char c) = normalize_char c
  ∧ normalize_char c ≠ "_"%char
  ∧ normalize_char c ≠ "-"%char
  ∧ Str.lower_char (normalize_char c) = normalize_char c.
Proof.
  destruct c as [[] [] [] [] [] [] [] []];
    (split; [reflexivity|split; [discriminate|split; [discriminate|reflexivity]]]).
Qed.

Lemma get_map_chars f s i :
  String.get i (Str.map_chars f s) = f <$> String.get i s.
Proof.
  revert i. induction s as [|c s IH]; intros i; simpl; [done|].
  destruct i as [|i]; [done|]. apply IH.
Qed.

Lemma length_map_chars f s :
  String.length (Str.map_chars f s) = String.length s.
Proof. induction s; simpl; congruence. Qed.

(** X15: normalizing a lemma twice gives what normalizing it once
    gives; the normalized lemma has the length of the original and holds
    no underscore, no hyphen and no capital letter. *)
Theorem normalize_lemma_idempotent (lemma : string) :
  normalize_lemma (normalize_lemma lemma) = normalize_lemma lemma
  ∧ String.length (normalize_lemma lemma) = String.length lemma
  ∧ ∀ i c, String.get i (normalize_lemma lemma) = Some c →
           c ≠ "_"%char ∧ c ≠ "-"%char ∧ Str.lower_char c = c.
Proof.
  rewrite !normalize_lemma_map. split; [|split].
  - rewrite StrFacts.map_chars_compose. apply StrFacts.map_chars_ext.
    intros c. apply normalize_char_facts.
  - apply length_map_chars.
  - intros i c. rewrite get_map_chars.
    destruct (String.get i lemma) as [c0|]; [|discriminate].
    intros [= <-]. destruct (normalize_char_facts c0) as (_ & H1 & H2 & H3).
    by split; [|split].
Qed.

(** ** [find_lowest_common_ancestor]: edge cases *)

(** X16: [find_lowest_common_ancestor] raises IndexError on an empty
    list of words; and when one of the words has no sense at all (a word
    WordNet does not know), it returns [entity.n.01] with its
    specificity, whatever the other words are. *)
Theorem find_lowest_common_ancestor_unknown_word
    (wn : WordNet) (limit : nat) (specificity : gmap string nat)
    (words : list string) (unknown : string) (entity : Synset) :
  (∀ cache, find_lowest_common_ancestor wn limit cache [] = Raise IndexError)
  ∧ (unknown ∈ words →
     wn_synsets wn unknown = [] →
     cache_state wn limit specificity →
     wn_synset wn "entity.n.01" = Some entity →
     forallb (fun w => forallb (nests_within (hypernyms wn) limit)
                               (wn_synsets wn w)) words = true →
     nests_within (hyponyms wn) limit entity = true →
     ∃ specificity',
       find_lowest_common_ancestor wn limit specificity words
       = Ok ((specificity_of wn limit entity, entity), specificity')).
Proof.
  split; [done|].
  intros Hin Hnone Hstate Hentity Hup Hdown.
  destruct words as [|word0 rest]; [by apply elem_of_nil in Hin|].
  simpl in Hup. apply andb_prop in Hup as [Hup0 Huprest].
  destruct (get_all_hypernyms_spec wn limit word0 Hup0) as (hs0 & Hhs0 & Hspec0).
  destruct (common_hypernyms_loop wn limit hs0 rest Huprest)
    as (common & Hloop & Hcommon).
  assert (size common = 0%nat) as Hempty.
  { apply size_empty_iff, elem_of_equiv_empty. intros h Hh.
    apply Hcommon in Hh as [H0 Hrest].
    assert (hypernym_of_word wn unknown h) as (sense & Hsense & _).
    { apply elem_of_cons in Hin as [->|Hin]; [by apply Hspec0|by apply Hrest]. }
    rewrite Hnone in Hsense. by apply elem_of_nil in Hsense. }
  unfold find_lowest_common_ancestor. rewrite Hhs0. simpl.
  rewrite Hloop. simpl.
  destruct (decide (size common = 0)%nat) as [_|?]; [|done].
  unfold lookup_synset. rewrite Hentity. simpl.
  destruct (evaluate_returns wn limit specificity entity Hstate Hdown)
    as (cache' & Hev & _).
  rewrite Hev. simpl. by exists cache'.
Qed.

Lemma find_lowest_common_ancestor_unknown_word_witness :
  ∃ specificity',
    find_lowest_common_ancestor animals 10 Specificity.init ["dog"; "unicorn"]
    = Ok ((specificity_of animals 10 "entity.n.01", "entity.n.01"),
          specificity').
Proof.
  apply (proj2 (find_lowest_common_ancestor_unknown_word animals 10
                  Specificity.init ["dog"; "unicorn"] "unicorn" "entity.n.01")).
  - by_compute.
  - vm_compute. reflexivity.
  - apply cache_init.
  - vm_compute. reflexivity.
  - vm_compute. reflexivity.
  - vm_compute. reflexivity.
Defined.

(** ** The log of [train] *)

Lemma appends_ret {A : Type} (P : Row → Prop) (Post : A → Prop) (a : A) :
  Post a → appends P Post (ret a).
Proof.
  intros Ha csv. exists []. simpl. rewrite app_nil_r.
  split; [done|]. split; [constructor|]. by intros a' [= <-].
Qed.

Lemma appends_lift {A : Type} (P : Row → Prop) (Post : A → Prop)
    (m : outcome A) :
  (∀ a, m = Ok a → Post a) → appends P Post (lift m).
Proof.
  intros Hm csv. exists []. simpl. rewrite app_nil_r.
  split; [done|]. split; [constructor|done].
Qed.

Lemma appends_bind {A B : Type} (P : Row → Prop) (Mid : A → Prop)
    (Post : B → Prop) (m : Run A) (k : A → Run B) :
  appends P Mid m → (∀ a, Mid a → appends P Post (k a)) →
  appends P Post (bind_run m k).
Proof.
  intros Hm Hk csv. unfold bind_run.
  destruct (Hm csv) as (rows & Hrows & HP & Hmid).
  destruct (m csv) as [[a|e|] csv'] eqn:Em; simpl in *; subst csv'.
  - destruct (Hk a (Hmid a eq_refl) (csv ++ rows)) as (rows' & Hrows' & HP' & Hpost).
    exists (rows ++ rows'). rewrite Hrows', app_assoc.
    split; [done|]. split; [by apply Forall_app|done].
  - exists rows. split; [done|]. split; [done|discriminate].
  - exists rows. split; [done|]. split; [done|discriminate].
Qed.

Lemma appends_write (P : Row → Prop) w n acc ok :
  P {| word := w; epochs_used := n; best_accuracy := acc; success := ok |} →
  appends P (fun _ => True) (write_to_csv w n acc ok).
Proof.
  intros HP csv. eexists [_]. simpl. split; [done|].
  split; [by repeat constructor|done].
Qed.

Section Log.
Context `{Classifier}.
Variables (wn : WordNet) (limit fuel : nat).
Variables (num_epochs hidden_size num_puzzles_to_generate batch_size : nat).

Lemma train_and_evaluate_threshold epoch (st st1 : Locals) :
  below_threshold st →
  train_and_evaluate num_puzzles_to_generate batch_size epoch st = Ok st1 →
  Qgtb (best_test_acc st1) (8 # 10) = true →
  (epoch mod 100 = 99)%nat.
Proof.
  unfold below_threshold, train_and_evaluate. intros Hbelow.
  destruct (maybe_regenerate _ _ _ _ _ _ _) as [[l t] d].
  intros Hrun. apply bind_Ok in Hrun as (m & _ & Hrun).
  apply bind_Ok in Hrun as ([bm acc] & Hev & [= <-]). simpl.
  unfold maybe_evaluate in Hev.
  destruct (decide (epoch mod 100 = 99)%nat) as [?|_]; [done|].
  injection Hev as _ <-. congruence.
Qed.

Lemma promote_appends epoch (st : Locals) :
  (epoch < num_epochs)%nat → (epoch mod 100 = 99)%nat →
  Qgtb (best_test_acc st) (8 # 10) = true →
  appends (row_shape num_epochs) below_threshold
          (promote wn fuel num_puzzles_to_generate batch_size epoch st).
Proof.
  intros Hlt Hmod Hbest. unfold promote.
  apply (appends_bind _ (fun _ => True)); [by apply appends_lift|].
  intros chain _.
  apply (appends_bind _ (fun _ => True)); [by apply appends_lift|].
  intros parent _.
  apply (appends_bind _ (fun _ => True)).
  { apply appends_write. unfold row_shape. simpl. auto. }
  intros _ _. destruct (maybe_regenerate _ _ _ _ _ _ _) as [[l t] d].
  by apply appends_ret.
Qed.

Lemma budget_check_appends epoch (st : Locals) :
  (epoch < num_epochs)%nat → below_threshold st →
  appends (row_shape num_epochs) (fun r => below_threshold r.1)
          (budget_check num_epochs epoch st).
Proof.
  intros Hlt Hbelow. unfold budget_check.
  destruct (decide (epoch = num_epochs - 1)%nat) as [Hlast|_];
    [|by apply appends_ret].
  apply (appends_bind _ (fun _ => True)); [by apply appends_lift|].
  intros w _.
  apply (appends_bind _ (fun _ => True)).
  { apply appends_write. unfold row_shape. simpl. auto. }
  intros _ _. by apply appends_ret.
Qed.

Lemma epoch_body_appends epoch (st : Locals) :
  (epoch < num_epochs)%nat → below_threshold st →
  appends (row_shape num_epochs) (fun r => below_threshold r.1)
          (epoch_body wn fuel num_epochs num_puzzles_to_generate batch_size
                      epoch st).
Proof.
  intros Hlt Hbelow. unfold epoch_body.
  apply (appends_bind _
           (fun st1 => Qgtb (best_test_acc st1) (8 # 10) = true →
                       (epoch mod 100 = 99)%nat)).
  { apply appends_lift. intros st1 Hst1. by eapply train_and_evaluate_threshold. }
  intros st1 Hst1.
  apply (appends_bind _ below_threshold).
  - destruct (Qgtb (best_test_acc st1) (8 # 10)) eqn:Hbest.
    + apply promote_appends; auto.
    + by apply appends_ret.
  - intros st2 Hst2. by apply budget_check_appends.
Qed.

Lemma for_epochs_appends epochs (st : Locals) :
  Forall (fun epoch => epoch < num_epochs)%nat epochs → below_threshold st →
  appends (row_shape num_epochs) below_threshold
          (for_epochs wn fuel num_epochs num_puzzles_to_generate batch_size
                      epochs st).
Proof.
  intros Hall. revert st. induction Hall as [|epoch epochs Hlt _ IH];
    intros st Hbelow; simpl.
  - by apply appends_ret.
  - apply (appends_bind _ (fun r => below_threshold r.1));
      [by apply epoch_body_appends|].
    intros [st1 broke] Hst1. simpl in Hst1.
    destruct broke; [by apply appends_ret|by apply IH].
Qed.

Lemma train_target_appends root_synset_list carried drawn_so_far :
  appends (row_shape num_epochs) (fun _ => True)
          (train_target wn limit fuel num_epochs hidden_size
                        num_puzzles_to_generate batch_size
                        root_synset_list carried drawn_so_far).
Proof.
  unfold train_target.
  apply (appends_bind _ (fun _ => True)); [by apply appends_lift|].
  intros initial _.
  apply (appends_bind _ (fun _ => True)); [by apply appends_lift|].
  intros final _. intros csv.
  destruct (for_epochs_appends (seq 0 num_epochs)
              {| initial_root_synset := initial;
                 current_root := carried;
                 puzzle_generator :=
                   reset_root {| active_root := final |} initial;
                 model := TiedClassifier
                            (5 * vocab_size {| active_root := final |}) 5
                            hidden_size;
                 loader := None; test_loader := None; best_model := None;
                 best_test_acc := (-1)%Q; draws := drawn_so_far |})
    with (csv := csv) as (rows & Hrows & HP & _).
  - apply Forall_forall. intros epoch Hin. apply list_elem_of_In, in_seq in Hin.
    lia.
  - reflexivity.
  - exists rows. by split.
Qed.

Lemma train_targets_appends root_synset_lists carried drawn_so_far last :
  appends (row_shape num_epochs) (fun _ => True)
          (train_targets wn limit fuel num_epochs hidden_size
                         num_puzzles_to_generate batch_size
                         root_synset_lists carried drawn_so_far last).
Proof.
  revert carried drawn_so_far last.
  induction root_synset_lists as [|l lists IH]; intros carried d last; simpl.
  - by apply appends_lift.
  - apply (appends_bind _ (fun _ => True)); [apply train_target_appends|].
    intros st _. apply IH.
Qed.

(** X17: whatever its outcome, exceptions included, [train] only appends
    rows to the log it finds.  Every row it appends carries an epoch
    within the budget; a success row is written at an epoch that ends a
    block of 100 (99, 199, ...), with an accuracy above 0.8; a failure row
    is written at the last epoch of the budget. *)
Theorem train_appends_shaped_rows
    (root_synset_lists : list (list string)) (csv : list Row) :
  ∃ rows,
    (train wn limit fuel num_epochs hidden_size num_puzzles_to_generate
           batch_size root_synset_lists csv).2 = csv ++ rows
    ∧ Forall (row_shape num_epochs) rows.
Proof.
  destruct (train_targets_appends root_synset_lists None 0 None csv)
    as (rows & Hrows & HP & _).
  exists rows. by split.
Qed.

End Log.

Section Exhaustion.
Context `{Classifier}.
Variables (wn : WordNet) (limit fuel : nat).
Variables (num_epochs hidden_size num_puzzles_to_generate batch_size : nat).
Hypothesis Hnever : never_above.




End Exhaustion.


(** ** [get_all_hypernyms] and the best accuracy of a window *)

(** X19: [get_all_hypernyms(word)] returns exactly the synsets that are
    a hypernym, direct or not, of at least one sense of the word; for a
    word without senses it returns the empty set. *)
Theorem get_all_hypernyms_collects_all_senses
    (wn : WordNet) (limit : nat) (word : string) :
  forallb (nests_within (hypernyms wn) limit) (wn_synsets wn word) = true →
  ∃ hs, get_all_hypernyms wn limit word = Ok hs
        ∧ (∀ h, h ∈ hs ↔ ∃ sense, sense ∈ wn_synsets wn word
                                  ∧ tc (hypernym_of wn) sense h)
        ∧ (wn_synsets wn word = [] → hs = ∅).
Proof.
  intros Hn.
  destruct (get_all_hypernyms_spec wn limit word Hn) as (hs & Hrun & Hspec).
  exists hs. split; [done|]. split; [exact Hspec|].
  intros Hnone. apply leibniz_equiv, elem_of_equiv_empty. intros h Hh.
  apply Hspec in Hh as (sense & Hsense & _).
  rewrite Hnone in Hsense. by apply elem_of_nil in Hsense.
Qed.

Lemma get_all_hypernyms_collects_all_senses_witness :
  ∃ hs, get_all_hypernyms animals 10 "dog" = Ok hs
        ∧ ("pet.n.01" ∈ hs
           ↔ ∃ sense, sense ∈ wn_synsets animals "dog"
                      ∧ tc (hypernym_of animals) sense "pet.n.01").
Proof.
  destruct (get_all_hypernyms_collects_all_senses animals 10 "dog")
    as (hs & H1 & H2 & _).
  - vm_compute. reflexivity.
  - exists hs. split; [exact H1|exact (H2 "pet.n.01")].
Defined.



